(** * Pippenger bucket-method MSM kernels (src/aztec/gpu/msm/kernel.cu)

    A shallow embedding of the device kernels of the multi-scalar
    multiplication engine, and the properties of its specification.

    Conventions of the embedding.
    - Integers of the source are [Z] with their wrap-around written out:
      [unsigned] is [uint32], [uint64_t] is [uint64], [int] is [int32].
    - A shift whose amount reaches the register width is executed by the
      device as a clamped shift (all bits shifted out); [shl32], [shl64]
      and [shr64] write that out.
    - Device arrays are lists; an access outside the array has no defined
      value and is [None], which every kernel propagates.
    - The four threads of a cooperative tile each hold one limb of a field
      element ([data[tid % 4]]); a tile is embedded as one worker that
      operates on whole field elements.  The field and curve arithmetic
      ([fq_gpu], [g1_gpu]) is a collaborator of the kernels and enters as
      the interface [Curve]. *)

From Stdlib Require Import ZArith Lia Bool Zdivisibility.
From coqutil Require Import Z.PushPullMod.
From stdpp Require Import base numbers list option.

Local Open Scope Z_scope.

(** ** Machine integers *)

Definition uint32 (z : Z) : Z := z mod 2 ^ 32.
Definition uint64 (z : Z) : Z := z mod 2 ^ 64.
Definition int32 (z : Z) : Z := (z + 2 ^ 31) mod 2 ^ 32 - 2 ^ 31.

(** [a << n] on [int], [a << n] and [a >> n] on [uint64_t]. *)
Definition shl32 (a n : Z) : Z := if 32 <=? n then 0 else int32 (Z.shiftl a n).
Definition shl64 (a n : Z) : Z := if 64 <=? n then 0 else uint64 (Z.shiftl a n).
Definition shr64 (a n : Z) : Z := if 64 <=? n then 0 else Z.shiftr a n.

(** ** Device arrays *)

(** [a[i]] as a read and as a write; the index is a machine integer. *)
Definition rd {A} (a : list A) (i : Z) : option A :=
  if i <? 0 then None else a !! Z.to_nat i.

Definition wr {A} (a : list A) (i : Z) (v : A) : option (list A) :=
  if (0 <=? i) && (i <? Z.of_nat (length a)) then Some (<[Z.to_nat i := v]> a)
  else None.

(** ** Scalars: [fr_gpu], four 64-bit limbs, least significant first *)

Record fr_gpu := mk_fr { data : list Z }.

Definition limb_ok (l : Z) : Prop := 0 <= l < 2 ^ 64.

Definition fr_wf (s : fr_gpu) : Prop :=
  length (data s) = 4%nat /\ Forall limb_ok (data s).

Fixpoint limbs_value (ls : list Z) : Z :=
  match ls with
  | [] => 0
  | l :: ls' => l + 2 ^ 64 * limbs_value ls'
  end.

Definition scalar_value (s : fr_gpu) : Z := limbs_value (data s).

(** ** 4.1 Digit decomposer *)

(** [(1 << width) - 1], computed on [int] and widened to [uint64_t] by the
    compound assignment [rv &= ...]. *)
Definition digit_mask (width : Z) : Z := uint64 (int32 (shl32 1 width - 1)).

(** [decompose_scalar_digit(scalar, num, width)]. *)
Definition decompose_scalar_digit (scalar : fr_gpu) (num width : Z) : option Z :=
  let limb_lsb_idx := uint32 (num * width) / 64 in
  let shift_bits := uint32 (num * width) mod 64 in
  limb ← rd (data scalar) limb_lsb_idx;
  let rv := shr64 limb shift_bits in
  rv ← (if (64 <? shift_bits + width) && (limb_lsb_idx + 1 <? 4) then
          next ← rd (data scalar) (limb_lsb_idx + 1);
          Some (uint64 (rv + shl64 next (64 - shift_bits)))
        else Some rv);
  Some (Z.land rv (digit_mask width)).

(** All the digits of one scalar, window 0 first. *)
Definition scalar_digits (scalar : fr_gpu) (num_bucket_modules c : Z)
  : option (list Z) :=
  mapM (fun i => decompose_scalar_digit scalar i c)
       (seqZ 0 num_bucket_modules).

(** The recombination of the specification, [Sum_i digit_i * 2^(c*i)]. *)
Fixpoint recombine (c : Z) (digits : list Z) : Z :=
  match digits with
  | [] => 0
  | d :: ds => d + 2 ^ c * recombine c ds
  end.

(** The largest value of the scalar field, [r - 1]. *)
Definition fr_max : fr_gpu :=
  mk_fr [0x43e1f593f0000000; 0x2833e84879b97091;
         0xb85045b68181585d; 0x30644e72e131a029].

(** ** 3. Points and the curve collaborators *)

(** [g1_gpu::element]: three base-field coordinates. *)
Record element (fq : Type) := mk_element { x : fq; y : fq; z : fq }.
Arguments mk_element {fq} _ _ _.
Arguments x {fq} _.
Arguments y {fq} _.
Arguments z {fq} _.

(** What the kernels call in [fq_gpu] and [g1_gpu].  [add P Q] is
    [g1_gpu::add(P, Q, out)], the addition formula as the collaborator
    provides it; [doubling P] is [g1_gpu::doubling(P, out)]. *)
Class Curve (fq : Type) := {
  fq_zero : fq;
  fq_one : fq;
  fq_is_zero : fq -> bool;
  fq_eqb : fq -> fq -> bool;
  fq_mul : fq -> fq -> fq;
  fq_square : fq -> fq;
  add : element fq -> element fq -> element fq;
  doubling : element fq -> element fq
}.

(** ** Loops of the kernels *)

(** [for (i = n; i > 0; i--) body(i)] *)
Fixpoint for_down {S} (n : nat) (body : Z -> S -> option S) (s : S) : option S :=
  match n with
  | O => Some s
  | S n' => s' ← body (Z.of_nat n) s; for_down n' body s'
  end.

(** [for (i = lo; i < lo + n; i++) body(i)] *)
Fixpoint for_up {S} (n : nat) (lo : Z) (body : Z -> S -> option S) (s : S)
  : option S :=
  match n with
  | O => Some s
  | S n' => s' ← body lo s; for_up n' (lo + 1) body s'
  end.

(** ** Launch geometry *)

(** One cooperative tile of four threads: [tid] is the global id of its
    first thread, [subgroup] and [subgroup_size] are what
    [fixnum::layout()] reports as [meta_group_rank()] and
    [meta_group_size()]. *)
Record tile := mk_tile {
  tid : Z;
  blockIdx_x : Z;
  subgroup : Z;
  subgroup_size : Z
}.

(** [subgroup + (subgroup_size * blockIdx.x)], the slot a tile owns. *)
Definition slot (t : tile) : Z :=
  uint32 (subgroup t + subgroup_size t * blockIdx_x t).

(** A grid of [n] tiles, one per block. *)
Definition grid (n : Z) : list tile :=
  (fun i => mk_tile (4 * i) i 0 1) <$> seqZ 0 n.

(** Run a kernel on every tile (or thread) of a grid over the same device
    memory; the tiles own disjoint slots, so their order is immaterial and
    they are taken one after the other. *)
Fixpoint launch {T M} (k : T -> M -> option M) (g : list T) (m : M)
  : option M :=
  match g with
  | [] => Some m
  | t :: g' => m' ← k t m; launch k g' m'
  end.

Section Kernels.
Context {fq : Type} `{Curve fq}.

Local Abbreviation point := (element fq).

(** The all-zero coordinate triple, as [fq_gpu::load(0, _)] writes it. *)
Definition zero_element : point := mk_element fq_zero fq_zero fq_zero.

(** [is_zero(P.x) && is_zero(P.y) && is_zero(P.z)] *)
Definition is_zero_element (P : point) : bool :=
  fq_is_zero (x P) && fq_is_zero (y P) && fq_is_zero (z P).

(** *** Helper kernels *)

(** [affine_to_jacobian]: [z] becomes [one]. *)
Definition affine_to_jacobian (a_point : fq * fq) : point :=
  mk_element (fst a_point) (snd a_point) fq_one.

(** [comparator_kernel]: equality of two points up to their [z]. *)
Definition comparator_kernel (point point_2 : point) : bool :=
  let lhs_zz := fq_square (z point) in
  let lhs_zzz := fq_mul lhs_zz (z point) in
  let rhs_zz := fq_square (z point_2) in
  let rhs_zzz := fq_mul rhs_zz (z point_2) in
  let lhs_x := fq_mul (x point) rhs_zz in
  let lhs_y := fq_mul (y point) rhs_zzz in
  let rhs_x := fq_mul (x point_2) lhs_zz in
  let rhs_y := fq_mul (y point_2) lhs_zzz in
  fq_eqb lhs_x rhs_x && fq_eqb lhs_y rhs_y.

(** *** Naive double-and-add kernel *)

(** One pass of the innermost loop body, bit [i] of limb [j]. *)
Definition bit_step (k : fr_gpu) (Q : point) (j i : Z) (R : point)
  : option point :=
  limb ← rd (data k) j;
  let R := if negb (Z.land (shr64 limb i) 1 =? 0) then add Q R else R in
  Some (if negb (i =? 0) then doubling R else R).

(** [for (j = 3; j >= 0; j--) for (i = 64; i >= 0; i--) ...], the loop
    nest that [double_and_add_kernel] and [final_accumulation_kernel]
    both carry. *)
Definition bit_loop (k : fr_gpu) (Q R : point) : option point :=
  for_down 4 (fun j1 R =>
    for_down 65 (fun i1 R => bit_step k Q (j1 - 1) (i1 - 1) R) R) R.

(** [double_and_add_kernel(test_scalars, test_points, final_result,
    num_points)]; the value left in [final_result[0]].  The body runs on
    the threads with [tid < LIMBS], the one tile of the four limbs. *)
Definition double_and_add_kernel (test_scalars : list fr_gpu)
    (test_points : list point) (num_points : Z) : option point :=
  for_up (Z.to_nat num_points) 0 (fun z final_result =>
    k ← rd test_scalars z;
    Q ← rd test_points z;
    R ← bit_loop k Q zero_element;
    Some (add R final_result)) zero_element.

(** *** Bucket-method kernels *)

(** [initialize_buckets_kernel]: thread [tid] stores limb [data[tid]] of
    [fq_gpu::zero()] into limb [data[tid]] of the three coordinates of its
    tile's bucket; the four limb indices of the tile are
    [tid .. tid + 3]. *)
Definition initialize_buckets_kernel (t : tile) (bucket : list point)
  : option (list point) :=
  if (0 <=? tid t) && (tid t + 3 <? 4) then wr bucket (slot t) zero_element
  else None.

(** [split_scalars_kernel], thread [tid]: the pair of arrays
    [(bucket_indices, point_indices)] after the thread's writes. *)
Definition split_scalars_kernel (scalars : list fr_gpu)
    (npoints num_bucket_modules c : Z) (tid : Z) (mem : list Z * list Z)
  : option (list Z * list Z) :=
  for_up (Z.to_nat num_bucket_modules) 0 (fun i mem =>
    scalar ← rd scalars tid;
    digit ← decompose_scalar_digit scalar i c;
    let bucket_index := uint32 digit in
    let current_index := uint32 (i * npoints + tid) in
    bucket_indices ←
      wr (fst mem) current_index
         (Z.lor (uint32 (shl32 i c)) bucket_index);
    point_indices ← wr (snd mem) current_index (uint32 tid);
    Some (bucket_indices, point_indices)) mem.

(** [binaryElementAdd::operator()] *)
Definition binaryElementAdd (element_a element_b : point) : point :=
  let result := add element_a element_b in
  if is_zero_element result then doubling element_b else result.

(** [thrust::reduce(first, last, init, op)] over the elements it reads. *)
Definition thrust_reduce (a : list point) (first last : Z) (init : point)
    (op : point -> point -> point) : option point :=
  vs ← mapM (rd a) (seqZ first (last - first));
  Some (foldl op init vs).

(** [accumulate_buckets_kernel]: the [buckets] array after the tile has
    run.  [zero_element'] is the uninitialised local [point_t
    zero_element]; [sizeof(buckets)] is the size of a pointer, 8.  The
    value of each [thrust::reduce] call is dropped by the source. *)
Definition accumulate_buckets_kernel (bucket_offsets bucket_sizes
    single_bucket_indices point_indices : list Z) (points : list point)
    (num_buckets : Z) (zero_element' : point) (t : tile)
    (buckets : list point) : option (list point) :=
  bucket_index ← rd single_bucket_indices (slot t);
  bucket_size ← rd bucket_sizes (slot t);
  bucket_offset ← rd bucket_offsets (slot t);
  if bucket_size =? 0 then Some buckets
  else
    for_up (Z.to_nat num_buckets) 0 (fun i buckets =>
      _ ← thrust_reduce buckets 0 8 zero_element' binaryElementAdd;
      Some buckets) buckets.

(** [bucket_running_sum_kernel]: the [final_sum] array after the tile
    has run. *)
Definition bucket_running_sum_kernel (buckets : list point) (c : Z)
    (t : tile) (final_sum : list point) : option (list point) :=
  let w := slot t in
  line_sum ← rd buckets (uint32 ((w + 1) * shl32 1 c - 1));
  final_sum ← wr final_sum w line_sum;
  ls ← for_down (Z.to_nat (uint32 (shl32 1 c - 2))) (fun i ls =>
    b ← rd buckets (uint32 (w * shl32 1 c + i));
    let line_sum := add b (fst ls) in
    let total := add line_sum (snd ls) in
    Some (line_sum,
          if is_zero_element total then doubling line_sum else total))
    (line_sum, line_sum);
  wr final_sum w (snd ls).

(** [bucket_running_sum_kernel_2]: the arrays [(S_, G_)] after the tile
    has run. *)
Definition bucket_running_sum_kernel_2 (buckets : list point) (M U : Z)
    (t : tile) (mem : list point * list point)
  : option (list point * list point) :=
  gs ← for_down (Z.to_nat U) (fun u1 gs =>
    let u := u1 - 1 in
    let S := snd gs in
    let G := add S (fst gs) in
    let G := if is_zero_element G then doubling S else G in
    b ← rd buckets (uint32 (slot t * shl32 1 (uint32 (M - 1)) + u));
    Some (G, add S b)) (zero_element, zero_element);
  S_ ← wr (fst mem) (blockIdx_x t) (snd gs);
  G_ ← wr (snd mem) (blockIdx_x t) (fst gs);
  Some (S_, G_).

(** [bucket_running_sum_kernel_3]: the [result] array after the tile has
    run.  [log2f(U)] is taken as [Z.log2 U], which it is for the powers
    of two the segment size ranges over. *)
Definition bucket_running_sum_kernel_3 (S_ G_ : list point) (M U : Z)
    (t : tile) (result : list point) : option (list point) :=
  ss ← for_up (Z.to_nat (uint32 (M - 1))) 0 (fun m ss =>
    s ← rd S_ (uint32 (slot t * (M - 1) + m));
    let S := add s (fst ss) in
    let S_k := add (snd ss) S in
    Some (S, if is_zero_element S_k then doubling S else S_k))
    (zero_element, zero_element);
  _ ← guard (0 < U);
  let v := Z.log2 U in
  S_k ← for_up (Z.to_nat v) 0 (fun m S_k => Some (doubling S_k)) (snd ss);
  G_k ← for_up (Z.to_nat M) 0 (fun m G_k =>
    g ← rd G_ (uint32 (slot t * (M - 1) + m));
    Some (add G_k g)) zero_element;
  let G_k := add S_k G_k in
  wr result (blockIdx_x t) S_k.

(** [fr_gpu exponent{ 1024, 0, 0, 0 }] *)
Definition exponent : fr_gpu := mk_fr [1024; 0; 0; 0].

(** [final_accumulation_kernel(final_sum, final_result,
    num_bucket_modules, c)]; the value left in [final_result[0]]. *)
Definition final_accumulation_kernel (final_sum : list point)
    (num_bucket_modules c : Z) : option point :=
  for_down 26 (fun z final_result =>
    let Q := final_result in
    R ← bit_loop exponent Q zero_element;
    s ← rd final_sum (z - 1);
    let final_result := add R s in
    Some (if is_zero_element final_result then doubling R
          else final_result)) zero_element.

(** *** The stages as the specification words them *)

(** An addition with the doubling substitution: a raw result with
    all-zero coordinates is replaced by the doubling of an operand. *)
Definition guarded_add (P Q : point) : point :=
  let r := add P Q in
  if is_zero_element r then doubling P else r.

(** [n * P], by repeated guarded addition. *)
Fixpoint point_mul (n : nat) (P : point) : point :=
  match n with
  | O => zero_element
  | S n' => guarded_add (point_mul n' P) P
  end.

(** 4.3: the sum of the points whose indices lie in
    [point_indices[offset .. offset + size)]. *)
Definition bucket_sum_spec (points : list point) (point_indices : list Z)
    (offset size : Z) : option point :=
  for_up (Z.to_nat size) offset (fun i acc =>
    pi ← rd point_indices i;
    P ← rd points pi;
    Some (guarded_add acc P)) zero_element.

(** 4.4: [Sum_{d=1}^{2^c-1} d * bucket_sum[d]] for module [w]. *)
Definition weighted_sum_spec (buckets : list point) (c w : Z)
  : option point :=
  for_up (Z.to_nat (2 ^ c - 1)) 1 (fun d acc =>
    b ← rd buckets (w * 2 ^ c + d);
    Some (guarded_add acc (point_mul (Z.to_nat d) b))) zero_element.

(** 4.5: start from the identity; for each module from the highest
    index to the lowest, double the running result [c] times, then add
    that module's contribution. *)
Definition final_accumulation_spec (final_sum : list point)
    (num_bucket_modules c : Z) : option point :=
  for_down (Z.to_nat num_bucket_modules) (fun z result =>
    s ← rd final_sum (z - 1);
    Some (guarded_add (Nat.iter (Z.to_nat c) doubling result) s))
    zero_element.

(** The naive kernel with the doubling substitution at both of its
    addition sites. *)
Definition double_and_add_guarded (test_scalars : list fr_gpu)
    (test_points : list point) (num_points : Z) : option point :=
  for_up (Z.to_nat num_points) 0 (fun z final_result =>
    k ← rd test_scalars z;
    Q ← rd test_points z;
    R ← for_down 4 (fun j1 R =>
           for_down 65 (fun i1 R =>
             limb ← rd (data k) (j1 - 1);
             let R :=
               if negb (Z.land (shr64 limb (i1 - 1)) 1 =? 0)
               then guarded_add Q R else R in
             Some (if negb (i1 - 1 =? 0) then doubling R else R)) R)
           zero_element;
    Some (guarded_add R final_result)) zero_element.

(** What [final_accumulation_kernel] does to the running result between
    two contributions: the bit loop over [exponent] doubles the identity
    246 times, adds the running result at bit 10 and doubles 10 times. *)
Definition scale_1024 (Q : point) : point :=
  Nat.iter 10 doubling (add Q (Nat.iter 246 doubling zero_element)).

(** Twenty-six contributions, each step scaling by [scale_1024]. *)
Definition combine_26 (final_sum : list point) : option point :=
  for_down 26 (fun z result =>
    s ← rd final_sum (z - 1);
    let R := scale_1024 result in
    let r := add R s in
    Some (if is_zero_element r then doubling R else r)) zero_element.

(** *** 4.2 and 4.6: sorter and orchestrator *)

(** What the sort stage hands to the accumulation kernel. *)
Record sorted_buckets := mk_sorted {
  single_bucket_indices : list Z;
  bucket_offsets : list Z;
  bucket_sizes : list Z;
  sorted_point_indices : list Z
}.

Definition indices_of_key (bucket_indices point_indices : list Z) (k : Z)
  : list Z :=
  snd <$> filter (fun kp => fst kp = k) (zip bucket_indices point_indices).

Fixpoint prefix_sums (acc : Z) (sizes : list Z) : list Z :=
  match sizes with
  | [] => []
  | n :: sizes' => acc :: prefix_sums (acc + n) sizes'
  end.

(** Modelled from the spec: the bucket assigner's counting sort (4.2)
    runs on the host side of the engine and is not part of the kernels'
    file.  For every packed key [k < num_buckets] it yields the key, the
    number of entries that carry it and their offset in the point-index
    array ordered by packed key. *)
Definition counting_sort (num_buckets : Z)
    (bucket_indices point_indices : list Z) : sorted_buckets :=
  let keys := seqZ 0 num_buckets in
  let groups := indices_of_key bucket_indices point_indices <$> keys in
  let sizes := (fun g => Z.of_nat (length g)) <$> groups in
  mk_sorted keys (prefix_sums 0 sizes) sizes (concat groups).

(** Modelled from the spec: the orchestrator (4.6) is host code outside
    the kernels' file.  The bucket method runs stages 4.1 to 4.5 in
    order, each on the completed output of the one before.  [sorter] is
    the sort stage, [buckets] the bucket buffer as it stands when
    accumulation starts, [zero_element'] the uninitialised local of the
    accumulation kernel. *)
Definition bucket_method
    (sorter : Z -> list Z -> list Z -> sorted_buckets)
    (c num_bucket_modules : Z) (zero_element' : point)
    (buckets : list point) (points : list point) (scalars : list fr_gpu)
    (npoints : Z) : option point :=
  let num_buckets := num_bucket_modules * 2 ^ c in
  let cells := Z.to_nat (num_bucket_modules * npoints) in
  keyed ← launch (split_scalars_kernel scalars npoints num_bucket_modules c)
                 (seqZ 0 npoints) (replicate cells 0, replicate cells 0);
  let srt := sorter num_buckets (fst keyed) (snd keyed) in
  buckets ← launch
    (accumulate_buckets_kernel (bucket_offsets srt) (bucket_sizes srt)
       (single_bucket_indices srt) (sorted_point_indices srt) points
       num_buckets zero_element')
    (grid num_buckets) buckets;
  final_sum ← launch (bucket_running_sum_kernel buckets c)
    (grid num_bucket_modules)
    (replicate (Z.to_nat num_bucket_modules) zero_element);
  final_accumulation_kernel final_sum num_bucket_modules c.

(** One module reduced by the plain running sum. *)
Definition plain_running_sum (buckets : list point) (c : Z)
  : option (list point) :=
  launch (bucket_running_sum_kernel buckets c) (grid 1) [zero_element].

(** Modelled from the spec: the launches of the windowed variant are
    host code outside the kernels' file.  One module reduced by the
    windowed two-pass running sum (4.4): [M] tiles of
    [bucket_running_sum_kernel_2], one per segment, then
    [bucket_running_sum_kernel_3]. *)
Definition windowed_running_sum (buckets : list point) (M U : Z)
  : option (list point) :=
  let seg := replicate (Z.to_nat M) zero_element in
  sg ← launch (bucket_running_sum_kernel_2 buckets M U) (grid M) (seg, seg);
  launch (bucket_running_sum_kernel_3 (fst sg) (snd sg) M U) (grid 1)
         [zero_element].

(** The stages a call of [msm] launches. *)
Inductive stage :=
  | NaiveDoubleAndAdd | Decompose | Sort | Accumulate | Reduce
  | FinalAccumulate.

(** Modelled from the spec: [msm(points, scalars, n)], the interface the
    orchestrator exposes (4.6, 6, 7), is host code outside the kernels'
    file.  An empty input returns the identity and launches nothing;
    below the threshold the naive kernel runs; otherwise the bucket
    method.  The second component lists the stages that were launched. *)
Definition msm (sorter : Z -> list Z -> list Z -> sorted_buckets)
    (threshold c num_bucket_modules : Z) (zero_element' : point)
    (buckets : list point) (points : list (fq * fq))
    (scalars : list fr_gpu) (n : Z) : option point * list stage :=
  if n =? 0 then (Some zero_element, [])
  else if n <? threshold then
    (double_and_add_kernel scalars (affine_to_jacobian <$> points) n,
     [NaiveDoubleAndAdd])
  else
    (bucket_method sorter c num_bucket_modules zero_element' buckets
       (affine_to_jacobian <$> points) scalars n,
     [Decompose; Sort; Accumulate; Reduce; FinalAccumulate]).

End Kernels.

(** ** The contract of the curve collaborators *)

(** Modelled from the spec: the curve arithmetic is outside the kernels'
    file.  The specification takes point addition and doubling as
    correct, names the all-zero triple as the identity, and names the one
    edge of the raw addition formula: adding a point to itself yields
    all-zero coordinates.  [CurveLaws] states that contract for a cyclic
    group of [order] points: [valid] singles out the representations of
    curve points and [dlog P] is the multiple of the generator that [P]
    represents. *)
Class CurveLaws {fq : Type} `{Curve fq} (order : Z)
    (valid : element fq -> Prop) (dlog : element fq -> Z) : Prop := {
  order_pos : 0 < order;
  dlog_range : forall P, valid P -> 0 <= dlog P < order;
  valid_zero : valid zero_element;
  dlog_zero : dlog zero_element = 0;
  is_zero_dlog : forall P, valid P -> is_zero_element P = true -> dlog P = 0;
  doubling_valid : forall P, valid P -> valid (doubling P);
  doubling_dlog :
    forall P, valid P -> dlog (doubling P) = (2 * dlog P) mod order;
  add_valid : forall P Q, valid P -> valid Q -> valid (add P Q);
  add_dlog : forall P Q, valid P -> valid Q -> dlog P <> dlog Q ->
    dlog (add P Q) = (dlog P + dlog Q) mod order /\
    is_zero_element (add P Q) = false;
  add_same : forall P Q, valid P -> valid Q -> dlog P = dlog Q ->
    is_zero_element (add P Q) = true \/
    dlog (add P Q) = (2 * dlog P) mod order
}.

(** [Sum_{d = lo}^{lo + n - 1} d * f d], the weighted sum of 4.4 on
    multiples of the generator. *)
Fixpoint wsum (f : Z -> Z) (lo : Z) (n : nat) : Z :=
  match n with
  | O => 0
  | S n' => lo * f lo + wsum f (lo + 1) n'
  end.

(** The raw addition of the running sum never adds a point to itself:
    going down from bucket [n] with the accumulator at [L], no bucket sum
    equals the accumulator it is added to, unless one of them is the
    identity. *)
Fixpoint no_clash (order : Z) (f : Z -> Z) (n : nat) (L : Z) : Prop :=
  match n with
  | O => True
  | S n' =>
      (f (Z.of_nat n) <> L \/ f (Z.of_nat n) = 0 \/ L = 0) /\
      no_clash order f n' ((f (Z.of_nat n) + L) mod order)
  end.

(** The partial sums of the naive kernel never meet the multiple they are
    added to: going up the list of terms [k_i * dlog P_i] with the running
    sum at [acc], no term equals the running sum unless one of them is the
    identity. *)
Fixpoint no_clash_sum (order : Z) (terms : list Z) (acc : Z) : Prop :=
  match terms with
  | [] => True
  | t :: ts =>
      (t mod order <> acc \/ t mod order = 0 \/ acc = 0) /\
      no_clash_sum order ts ((t + acc) mod order)
  end.

(** [Sum_{d = lo}^{lo + n - 1} f d]. *)
Fixpoint psum (f : Z -> Z) (lo : Z) (n : nat) : Z :=
  match n with
  | O => 0
  | S n' => f lo + psum f (lo + 1) n'
  end.

(** ** A small instance of the collaborators

    The base-field and curve arithmetic is a collaborator of the kernels
    and not part of their file.  [Fp7] supplies one: the curve
    [y^2 = x^3 + 3] over the field of 7 elements, whose group has 13
    points and is generated by [(1, 2)]. *)
Module Fp7.

Definition p : Z := 7.

Definition fadd (a b : Z) : Z := (a + b) mod p.
Definition fsub (a b : Z) : Z := (a - b) mod p.
Definition fmul (a b : Z) : Z := (a * b) mod p.
Definition fsqr (a : Z) : Z := fmul a a.
Definition fdbl (a : Z) : Z := fadd a a.

(** Modelled from the spec: [g1_gpu::doubling], point doubling in the
    internal three-coordinate (Jacobian) representation of a
    short-Weierstrass curve, here with [a = 0]. *)
Definition jac_doubling (P : element Z) : element Z :=
  let A := fsqr (x P) in
  let B := fsqr (y P) in
  let C := fsqr B in
  let D := fdbl (fsub (fsub (fsqr (fadd (x P) B)) A) C) in
  let E := fadd (fdbl A) A in
  let F := fsqr E in
  let X3 := fsub F (fdbl D) in
  let Y3 := fsub (fmul E (fsub D X3)) (fdbl (fdbl (fdbl C))) in
  let Z3 := fdbl (fmul (y P) (z P)) in
  mk_element X3 Y3 Z3.

(** Modelled from the spec: [g1_gpu::add], point addition in the same
    representation.  An operand with [z = 0] is the identity and yields
    the other operand; otherwise the raw addition formula, whose result
    has all-zero coordinates when a point is added to itself. *)
Definition jac_add (P Q : element Z) : element Z :=
  if z P =? 0 then Q
  else if z Q =? 0 then P
  else
    let Z1Z1 := fsqr (z P) in
    let Z2Z2 := fsqr (z Q) in
    let U1 := fmul (x P) Z2Z2 in
    let U2 := fmul (x Q) Z1Z1 in
    let S1 := fmul (fmul (y P) (z Q)) Z2Z2 in
    let S2 := fmul (fmul (y Q) (z P)) Z1Z1 in
    let H := fsub U2 U1 in
    let I := fsqr (fdbl H) in
    let J := fmul H I in
    let r := fdbl (fsub S2 S1) in
    let V := fmul U1 I in
    let X3 := fsub (fsub (fsqr r) J) (fdbl V) in
    let Y3 := fsub (fmul r (fsub V X3)) (fdbl (fmul S1 J)) in
    let Z3 := fmul (fsub (fsub (fsqr (fadd (z P) (z Q))) Z1Z1) Z2Z2) H in
    mk_element X3 Y3 Z3.

#[export] Instance curve : Curve Z := {|
  fq_zero := 0;
  fq_one := 1;
  fq_is_zero := fun a => a =? 0;
  fq_eqb := Z.eqb;
  fq_mul := fmul;
  fq_square := fsqr;
  add := jac_add;
  doubling := jac_doubling
|}.

(** The generator, in Jacobian coordinates. *)
Definition G1 : element Z := affine_to_jacobian (1, 2).

(** Membership in the curve, [y^2 = x^3 + 3 z^6]. *)
Definition on_curve (P : element Z) : bool :=
  fsqr (y P) =?
  fadd (fmul (fsqr (x P)) (x P))
       (fmul 3 (fsqr (fmul (fsqr (z P)) (z P)))).

(** The representations of curve points: coordinates reduced modulo 7
    that satisfy the curve equation. *)
Definition coords : list Z := seqZ 0 7.

Definition all_triples : list (element Z) :=
  a ← coords; b ← coords; c ← coords; [mk_element a b c].

Definition curve_points : list (element Z) :=
  List.filter on_curve all_triples.

Definition in_field (a : Z) : bool := (0 <=? a) && (a <? p).

Definition valid (P : element Z) : bool :=
  in_field (x P) && in_field (y P) && in_field (z P) && on_curve P.

(** [n * G1] for [n = 1 .. 12], in affine form. *)
Definition multiples : list (Z * element Z) :=
  (fun n => (n, Nat.iter (Z.to_nat n) (fun Q => binaryElementAdd Q G1)
                         zero_element)) <$> seqZ 1 12.

(** The multiple of [G1] a representation stands for; [z = 0] is the
    identity. *)
Definition dlog (P : element Z) : Z :=
  if z P =? 0 then 0
  else
    match List.find (fun nQ => comparator_kernel P (snd nQ)) multiples with
    | Some nQ => fst nQ
    | None => 0
    end.

(** The contract of the collaborators, as a check on one point and on a
    pair of points. *)
Definition laws_hold_1 (P : element Z) : bool :=
  (0 <=? dlog P) && (dlog P <? 13)
  && implb (is_zero_element P) (dlog P =? 0)
  && valid (jac_doubling P)
  && (dlog (jac_doubling P) =? (2 * dlog P) mod 13).

Definition laws_hold_2 (P Q : element Z) : bool :=
  valid (jac_add P Q)
  && (if dlog P =? dlog Q
      then is_zero_element (jac_add P Q)
           || (dlog (jac_add P Q) =? (2 * dlog P) mod 13)
      else (dlog (jac_add P Q) =? (dlog P + dlog Q) mod 13)
           && negb (is_zero_element (jac_add P Q))).

End Fp7.

Definition fr_of_Z (n : Z) : fr_gpu :=
  mk_fr [n mod 2 ^ 64; (n / 2 ^ 64) mod 2 ^ 64; (n / 2 ^ 128) mod 2 ^ 64;
         (n / 2 ^ 192) mod 2 ^ 64].

(** * Properties *)

(** ** Machine integers *)

Lemma uint32_small a : 0 <= a < 2 ^ 32 -> uint32 a = a.
Proof. intros. unfold uint32. apply Z.mod_small. lia. Qed.

Lemma uint64_small a : 0 <= a < 2 ^ 64 -> uint64 a = a.
Proof. intros. unfold uint64. apply Z.mod_small. lia. Qed.

Lemma digit_mask_ones c : 0 <= c <= 31 -> digit_mask c = Z.ones c.
Proof.
  intros Hc. unfold digit_mask, shl32.
  destruct (Z.leb_spec 32 c) as [|_]; [lia|].
  rewrite Z.shiftl_1_l, Z.ones_equiv.
  assert (Hp : 0 < 2 ^ c <= 2 ^ 31).
  { split; [apply Z.pow_pos_nonneg; lia | apply Z.pow_le_mono_r; lia]. }
  destruct (decide (c = 31)) as [->|Hne]; [reflexivity|].
  assert (2 ^ c <= 2 ^ 30) by (apply Z.pow_le_mono_r; lia).
  assert (H1 : int32 (2 ^ c) = 2 ^ c).
  { unfold int32. rewrite Z.mod_small; lia. }
  rewrite H1.
  assert (H2 : int32 (2 ^ c - 1) = 2 ^ c - 1).
  { unfold int32. rewrite Z.mod_small; lia. }
  rewrite H2. apply uint64_small. lia.
Qed.

(** ** Bits of a limb array *)

Lemma limb_high_bit l n : limb_ok l -> 64 <= n -> Z.testbit l n = false.
Proof.
  intros [Hl Hu] Hn.
  destruct (decide (l = 0)) as [->|Hz]; [apply Z.bits_0|].
  apply Z.bits_above_log2; [lia|].
  assert (Z.log2 l < 64) by (apply Z.log2_lt_pow2; lia). lia.
Qed.

Lemma limb_cons_testbit l v n :
  limb_ok l -> 0 <= n ->
  Z.testbit (l + 2 ^ 64 * v) n =
  if n <? 64 then Z.testbit l n else Z.testbit v (n - 64).
Proof.
  intros Hl Hn.
  assert (Hd : Z.land l (Z.shiftl v 64) = 0).
  { apply Z.bits_inj'. intros k Hk.
    rewrite Z.land_spec, Z.bits_0.
    destruct (Z.ltb_spec k 64).
    - rewrite Z.shiftl_spec_low by lia. apply andb_false_r.
    - rewrite limb_high_bit by (auto; lia). reflexivity. }
  rewrite (Z.mul_comm (2 ^ 64)), <- Z.shiftl_mul_pow2 by lia.
  rewrite Z.add_nocarry_lxor, Z.lxor_lor by exact Hd.
  rewrite Z.lor_spec.
  destruct (Z.ltb_spec n 64).
  - rewrite Z.shiftl_spec_low by lia. apply orb_false_r.
  - rewrite limb_high_bit by (auto; lia).
    rewrite Z.shiftl_spec by lia. reflexivity.
Qed.

Lemma limbs_value_testbit ls n :
  Forall limb_ok ls -> 0 <= n ->
  Z.testbit (limbs_value ls) n =
  from_option (fun l => Z.testbit l (n mod 64)) false (rd ls (n / 64)).
Proof.
  intros Hls. revert n.
  induction Hls as [|l ls Hl Hls IH]; intros n Hn; simpl limbs_value.
  - rewrite Z.bits_0. unfold rd.
    destruct (n / 64 <? 0); [reflexivity|]. by rewrite lookup_nil.
  - rewrite limb_cons_testbit by auto.
    unfold rd in *.
    assert (0 <= n / 64) by (apply Z.div_pos; lia).
    destruct (Z.ltb_spec (n / 64) 0); [lia|].
    destruct (Z.ltb_spec n 64).
    + rewrite Z.div_small, Z.mod_small by lia. reflexivity.
    + rewrite IH by lia.
      assert (0 <= (n - 64) / 64) by (apply Z.div_pos; lia).
      destruct (Z.ltb_spec ((n - 64) / 64) 0); [lia|].
      assert (Hq : n / 64 = (n - 64) / 64 + 1).
      { replace n with ((n - 64) + 1 * 64) at 1 by lia.
        apply Z.div_add. lia. }
      assert (Hr : n mod 64 = (n - 64) mod 64).
      { replace n with ((n - 64) + 1 * 64) at 1 by lia.
        apply Z.mod_add. lia. }
      rewrite Hq, Hr.
      replace (Z.to_nat ((n - 64) / 64 + 1)) with (S (Z.to_nat ((n - 64) / 64)))
        by lia.
      reflexivity.
Qed.

Lemma add_disjoint_testbit a b m n :
  (forall j, m <= j -> Z.testbit a j = false) ->
  (forall j, 0 <= j < m -> Z.testbit b j = false) ->
  Z.testbit (a + b) n = Z.testbit a n || Z.testbit b n.
Proof.
  intros Ha Hb.
  assert (Hd : Z.land a b = 0).
  { apply Z.bits_inj'. intros j Hj. rewrite Z.land_spec, Z.bits_0.
    destruct (Z.lt_ge_cases j m).
    - rewrite Hb by lia. apply andb_false_r.
    - rewrite Ha by lia. reflexivity. }
  rewrite Z.add_nocarry_lxor, Z.lxor_lor by exact Hd.
  apply Z.lor_spec.
Qed.

Lemma window_of_bits v k c d :
  0 <= k -> 0 <= c ->
  (forall n, 0 <= n < c -> Z.testbit d n = Z.testbit v (k + n)) ->
  Z.land d (Z.ones c) = (v / 2 ^ k) mod 2 ^ c.
Proof.
  intros Hk Hc Hbits.
  rewrite <- Z.land_ones, <- Z.shiftr_div_pow2 by lia.
  apply Z.bits_inj'. intros n Hn.
  rewrite !Z.land_spec, Z.shiftr_spec by lia.
  destruct (Z.lt_ge_cases n c).
  - rewrite Hbits by lia. f_equal. f_equal. lia.
  - rewrite Z.ones_spec_high by lia. by rewrite !andb_false_r.
Qed.

Lemma rd_is_Some {A} (a : list A) i :
  0 <= i < Z.of_nat (length a) -> is_Some (rd a i).
Proof.
  intros Hi. unfold rd. destruct (Z.ltb_spec i 0); [lia|].
  apply lookup_lt_is_Some. lia.
Qed.

Lemma rd_Forall {A} (P : A -> Prop) (a : list A) i v :
  Forall P a -> rd a i = Some v -> P v.
Proof.
  unfold rd. destruct (i <? 0); [done|].
  intros Ha Hl. eapply Forall_lookup_1; eauto.
Qed.

(** ** 4.1 Digit decomposer *)

(** The digit the decomposer returns is the window of the scalar's value. *)
Lemma decompose_scalar_digit_window s num c :
  fr_wf s -> 0 <= c <= 31 -> 0 <= num -> num * c < 256 ->
  decompose_scalar_digit s num c =
  Some ((scalar_value s / 2 ^ (num * c)) mod 2 ^ c).
Proof.
  intros [Hlen Hls] Hc Hnum Hlt.
  assert (Hk : 0 <= num * c) by lia.
  unfold decompose_scalar_digit.
  rewrite uint32_small by lia.
  set (k := num * c) in *.
  assert (Hidx : 0 <= k / 64 < 4).
  { split; [apply Z.div_pos; lia | apply Z.div_lt_upper_bound; lia]. }
  assert (Hsh : 0 <= k mod 64 < 64) by (apply Z.mod_pos_bound; lia).
  assert (Hkk : k = 64 * (k / 64) + k mod 64) by (apply Z.div_mod; lia).
  destruct (rd_is_Some (data s) (k / 64)) as [limb Hlimb]; [lia|].
  rewrite Hlimb. simpl.
  assert (Hlok : limb_ok limb) by (eapply rd_Forall; eauto).
  assert (Hshr : shr64 limb (k mod 64) = Z.shiftr limb (k mod 64)).
  { unfold shr64. destruct (Z.leb_spec 64 (k mod 64)); [lia|done]. }
  rewrite Hshr, digit_mask_ones by lia.
  (* the bit of the value at position [k + n] *)
  assert (Hbit : forall n, 0 <= n < c ->
    Z.testbit (scalar_value s) (k + n) =
    if k mod 64 + n <? 64 then Z.testbit limb (k mod 64 + n)
    else from_option (fun l => Z.testbit l (k mod 64 + n - 64)) false
           (rd (data s) (k / 64 + 1))).
  { intros n Hn. unfold scalar_value.
    rewrite limbs_value_testbit by (auto; lia).
    destruct (Z.ltb_spec (k mod 64 + n) 64).
    - replace ((k + n) / 64) with (k / 64)
        by (apply (Z.div_unique _ _ _ (k mod 64 + n)); lia).
      replace ((k + n) mod 64) with (k mod 64 + n)
        by (apply (Z.mod_unique _ _ (k / 64)); lia).
      by rewrite Hlimb.
    - replace ((k + n) / 64) with (k / 64 + 1)
        by (apply (Z.div_unique _ _ _ (k mod 64 + n - 64)); lia).
      replace ((k + n) mod 64) with (k mod 64 + n - 64)
        by (apply (Z.mod_unique _ _ (k / 64 + 1)); lia).
      reflexivity. }
  destruct (Z.ltb_spec 64 (k mod 64 + c)) as [Hcross|Hin]; simpl.
  - destruct (Z.ltb_spec (k / 64 + 1) 4) as [Hnext|Hlast]; simpl.
    + destruct (rd_is_Some (data s) (k / 64 + 1)) as [next Hn']; [lia|].
      rewrite Hn' in *. simpl. f_equal.
      apply window_of_bits; [lia..|]. intros n Hn.
      rewrite Hbit by lia.
      assert (Hnok : limb_ok next) by (eapply rd_Forall; eauto).
      unfold uint64 at 1. rewrite Z.mod_pow2_bits_low by lia.
      unfold shl64. destruct (Z.leb_spec 64 (64 - k mod 64)); [lia|].
      rewrite (add_disjoint_testbit _ _ (64 - k mod 64)).
      * rewrite Z.shiftr_spec by lia.
        unfold uint64. rewrite Z.mod_pow2_bits_low by lia.
        rewrite Z.shiftl_spec by lia.
        destruct (Z.ltb_spec (k mod 64 + n) 64).
        -- rewrite (Z.testbit_neg_r next) by lia.
           rewrite orb_false_r. f_equal. lia.
        -- rewrite (limb_high_bit limb) by (auto; lia). simpl.
           f_equal. lia.
      * intros j Hj. rewrite Z.shiftr_spec by lia.
        apply limb_high_bit; [auto|lia].
      * intros j Hj. unfold uint64. rewrite Z.mod_pow2_bits_low by lia.
        apply Z.shiftl_spec_low. lia.
    + f_equal. apply window_of_bits; [lia..|]. intros n Hn.
      rewrite Hbit by lia. rewrite Z.shiftr_spec by lia.
      destruct (Z.ltb_spec (k mod 64 + n) 64).
      * f_equal. lia.
      * rewrite (limb_high_bit limb) by (auto; lia).
        assert (Hnone : rd (data s) (k / 64 + 1) = None).
        { unfold rd. destruct (Z.ltb_spec (k / 64 + 1) 0); [done|].
          apply lookup_ge_None. lia. }
        by rewrite Hnone.
  - f_equal. apply window_of_bits; [lia..|]. intros n Hn.
    rewrite Hbit by lia. rewrite Z.shiftr_spec by lia.
    destruct (Z.ltb_spec (k mod 64 + n) 64); [|lia].
    f_equal. lia.
Qed.

Lemma limbs_value_nonneg ls : Forall limb_ok ls -> 0 <= limbs_value ls.
Proof.
  induction 1 as [|l ls [Hl _] _ IH]; simpl; [lia|].
  assert (0 < 2 ^ 64) by (apply Z.pow_pos_nonneg; lia). nia.
Qed.

Lemma mapM_total {A B} (f : A -> option B) (g : A -> B) (l : list A) :
  Forall (fun a => f a = Some (g a)) l -> mapM f l = Some (g <$> l).
Proof.
  induction 1 as [|a l Ha _ IH]; simpl; [done|].
  by rewrite Ha, IH.
Qed.

Lemma recombine_windows v c (n : nat) : forall j,
  0 <= c -> 0 <= j ->
  recombine c ((fun i => (v / 2 ^ (i * c)) mod 2 ^ c) <$> seqZ j (Z.of_nat n)) =
  (v / 2 ^ (j * c)) mod 2 ^ (c * Z.of_nat n).
Proof.
  induction n as [|n IH]; intros j Hc Hj.
  - rewrite seqZ_nil by lia. simpl. rewrite Z.mul_0_r. simpl.
    by rewrite Z.mod_1_r.
  - rewrite seqZ_cons by lia.
    replace (Z.pred (Z.of_nat (S n))) with (Z.of_nat n) by lia.
    rewrite fmap_cons. simpl recombine. rewrite IH by lia.
    assert (Hp1 : 0 < 2 ^ c) by (apply Z.pow_pos_nonneg; lia).
    assert (Hp2 : 0 < 2 ^ (c * Z.of_nat n)) by (apply Z.pow_pos_nonneg; lia).
    assert (Hp3 : 0 < 2 ^ (j * c)) by (apply Z.pow_pos_nonneg; lia).
    replace (c * Z.of_nat (S n)) with (c + c * Z.of_nat n) by lia.
    rewrite (Z.pow_add_r 2 c) by lia.
    rewrite Z.rem_mul_r by lia.
    replace (Z.succ j * c) with (j * c + c) by lia.
    rewrite (Z.pow_add_r 2 (j * c)) by lia.
    rewrite <- Z.div_div by lia. reflexivity.
Qed.

(** C6.  A four-limb scalar, split by [decompose_scalar_digit] into
    [num_bucket_modules] digits of width [c], is rebuilt exactly by
    [Sum_i digit_i * 2^(c*i)], and every digit lies in [[0, 2^c)].  The
    window width fits the 32-bit mask expression of the source, every
    window starts inside the four limbs, and the windows cover the
    scalar's bits: [value < 2^(c * num_bucket_modules)]. *)
Theorem decompose_recombine (s : fr_gpu) (num_bucket_modules c : Z) :
  fr_wf s ->
  0 <= c <= 31 ->
  0 <= num_bucket_modules ->
  (num_bucket_modules - 1) * c < 256 ->
  scalar_value s < 2 ^ (c * num_bucket_modules) ->
  exists digits,
    scalar_digits s num_bucket_modules c = Some digits /\
    Z.of_nat (length digits) = num_bucket_modules /\
    Forall (fun d => 0 <= d < 2 ^ c) digits /\
    recombine c digits = scalar_value s.
Proof.
  intros Hwf Hc Hn Hin Hcover.
  set (v := scalar_value s) in *.
  exists ((fun i => (v / 2 ^ (i * c)) mod 2 ^ c) <$> seqZ 0 num_bucket_modules).
  assert (Hp : 0 < 2 ^ c) by (apply Z.pow_pos_nonneg; lia).
  repeat split.
  - unfold scalar_digits. apply mapM_total.
    apply Forall_seqZ. intros i Hi.
    apply decompose_scalar_digit_window; [auto|lia|lia|nia].
  - rewrite length_fmap, length_seqZ. lia.
  - apply Forall_fmap, Forall_seqZ. intros i Hi. simpl.
    apply Z.mod_pos_bound. lia.
  - rewrite <- (Z2Nat.id num_bucket_modules) at 1 by lia.
    rewrite recombine_windows by lia.
    rewrite Z2Nat.id by lia. simpl. rewrite Z.div_1_r.
    apply Z.mod_small. split; [|done].
    destruct Hwf. by apply limbs_value_nonneg.
Qed.

(** The zero scalar and the largest scalar of the field, in 26 windows
    of width 10. *)
Example digits_zero :
  scalar_digits (mk_fr [0; 0; 0; 0]) 26 10 = Some (replicate 26 0).
Proof. vm_compute. reflexivity. Qed.

Example digits_max :
  scalar_digits fr_max 26 10 =
  Some [0; 0; 768; 591; 501; 248; 276; 450; 441; 542; 644; 207; 296; 535;
        21; 518; 438; 17; 901; 166; 416; 76; 814; 313; 100; 12].
Proof. vm_compute. reflexivity. Qed.

Lemma decompose_recombine_witness :
  exists digits,
    scalar_digits fr_max 26 10 = Some digits /\
    Z.of_nat (length digits) = 26 /\
    Forall (fun d => 0 <= d < 2 ^ 10) digits /\
    recombine 10 digits = scalar_value fr_max.
Proof.
  apply (decompose_recombine fr_max 26 10).
  - split; [reflexivity|]. unfold limb_ok. repeat constructor; done.
  - lia.
  - lia.
  - lia.
  - vm_compute. reflexivity.
Defined.


(** ** Device arrays and loops *)

Lemma rd_replicate {A} (n : nat) (v : A) i :
  0 <= i < Z.of_nat n -> rd (replicate n v) i = Some v.
Proof.
  intros Hi. unfold rd. destruct (Z.ltb_spec i 0); [lia|].
  apply lookup_replicate_2. lia.
Qed.

Lemma rd_short {A} (a : list A) i : Z.of_nat (length a) <= i -> rd a i = None.
Proof.
  intros Hi. unfold rd. destruct (Z.ltb_spec i 0); [done|].
  apply lookup_ge_None. lia.
Qed.

Lemma wr_length {A} (a a' : list A) i v :
  wr a i v = Some a' -> length a' = length a.
Proof.
  unfold wr. destruct (_ && _); [|done].
  intros [= <-]. apply length_insert.
Qed.

Lemma wr_replicate_same {A} (n : nat) (v : A) i :
  0 <= i < Z.of_nat n -> wr (replicate n v) i v = Some (replicate n v).
Proof.
  intros Hi. unfold wr. rewrite length_replicate.
  destruct (Z.leb_spec 0 i); [|lia].
  destruct (Z.ltb_spec i (Z.of_nat n)); [|lia]. simpl. f_equal.
  apply list_insert_id, lookup_replicate_2. lia.
Qed.

Lemma for_down_S {S} (n : nat) (body : Z -> S -> option S) (s : S) :
  for_down (Datatypes.S n) body s =
  body (Z.of_nat (Datatypes.S n)) s ≫= for_down n body.
Proof. reflexivity. Qed.

Lemma for_down_ext {S} (n : nat) (f g : Z -> S -> option S) (s : S) :
  (forall i s, f i s = g i s) -> for_down n f s = for_down n g s.
Proof.
  intros Hfg. revert s. induction n as [|n IH]; intros s; [done|].
  rewrite !for_down_S, Hfg. destruct (g _ s); simpl; [apply IH|done].
Qed.

(** A loop whose body leaves the state alone on the indices it visits. *)
Lemma for_down_fixed {S} (n : nat) (body : Z -> S -> option S) (s : S) :
  (forall i, 1 <= i <= Z.of_nat n -> body i s = Some s) ->
  for_down n body s = Some s.
Proof.
  induction n as [|n IH]; intros Hb; [done|].
  rewrite for_down_S, Hb by lia. simpl. apply IH. intros i Hi. apply Hb. lia.
Qed.

Lemma for_up_fixed {S} (n : nat) (lo : Z) (body : Z -> S -> option S) (s : S) :
  (forall i, lo <= i < lo + Z.of_nat n -> body i s = Some s) ->
  for_up n lo body s = Some s.
Proof.
  revert lo. induction n as [|n IH]; intros lo Hb; [done|].
  simpl. rewrite Hb by lia. simpl. apply IH. intros i Hi. apply Hb. lia.
Qed.

Lemma launch_fixed {T M} (k : T -> M -> option M) (g : list T) (m : M) :
  Forall (fun t => k t m = Some m) g -> launch k g m = Some m.
Proof.
  induction 1 as [|t g Ht _ IH]; [done|].
  simpl. rewrite Ht. simpl. exact IH.
Qed.

Lemma launch_invariant {T M} (P : M -> Prop) (k : T -> M -> option M)
    (g : list T) (m m' : M) :
  (forall t m m', P m -> k t m = Some m' -> P m') ->
  P m -> launch k g m = Some m' -> P m'.
Proof.
  intros Hk. revert m. induction g as [|t g IH]; intros m Hm; simpl.
  - by intros [= <-].
  - destruct (k t m) as [m1|] eqn:Hkt; simpl; [|done].
    apply IH. eapply Hk; eauto.
Qed.

Lemma slot_grid (n : Z) :
  n <= 2 ^ 32 -> Forall (fun t => 0 <= slot t < n) (grid n).
Proof.
  intros Hn. unfold grid. apply Forall_fmap, Forall_seqZ. intros i Hi.
  simpl. unfold slot. simpl. rewrite uint32_small; lia.
Qed.

(** ** 4.5 Final accumulator *)

Section FinalAccumulation.
Context {fq : Type} `{Curve fq}.

(** The bit loop over [exponent]: only bit 10 of the lowest limb is set. *)
Lemma bit_loop_exponent (Q : element fq) :
  bit_loop exponent Q zero_element = Some (scale_1024 Q).
Proof. vm_compute. reflexivity. Qed.

Lemma final_accumulation_combine_26 (final_sum : list (element fq))
    (num_bucket_modules c : Z) :
  final_accumulation_kernel final_sum num_bucket_modules c =
  combine_26 final_sum.
Proof.
  unfold final_accumulation_kernel, combine_26.
  apply for_down_ext. intros i s.
  rewrite bit_loop_exponent. simpl. reflexivity.
Qed.

(** The kernel walks module slots 25 down to 0 whatever it is told. *)
Lemma final_accumulation_short (final_sum : list (element fq))
    (num_bucket_modules c : Z) :
  (length final_sum < 26)%nat ->
  final_accumulation_kernel final_sum num_bucket_modules c = None.
Proof.
  intros Hlen. rewrite final_accumulation_combine_26. unfold combine_26.
  rewrite (for_down_S 25). rewrite rd_short by lia. reflexivity.
Qed.

(** C10.  [final_accumulation_kernel] writes the same [final_result]
    for any two pairs of arguments [(num_bucket_modules, c)]: it always
    combines the 26 module slots 25 .. 0 and scales the running result
    by the fixed exponent [2^10] between two of them. *)
Theorem final_accumulation_ignores_parameters
    (final_sum : list (element fq)) (num_bucket_modules c : Z)
    (num_bucket_modules' c' : Z) :
  final_accumulation_kernel final_sum num_bucket_modules c =
  final_accumulation_kernel final_sum num_bucket_modules' c' /\
  final_accumulation_kernel final_sum num_bucket_modules c =
  combine_26 final_sum.
Proof.
  split; [|apply final_accumulation_combine_26].
  by rewrite !final_accumulation_combine_26.
Qed.

End FinalAccumulation.

(** ** 4.3 Bucket accumulator *)

Section Accumulation.
Context {fq : Type} `{Curve fq}.

(** The tile reads and reduces, and stores nothing: whenever it runs to
    its end, [buckets] is as it was. *)
Lemma accumulate_buckets_kernel_unchanged (bucket_offsets bucket_sizes
    single_bucket_indices point_indices : list Z)
    (points : list (element fq)) (num_buckets : Z)
    (zero_element' : element fq) (t : tile) (buckets b' : list (element fq)) :
  accumulate_buckets_kernel bucket_offsets bucket_sizes
    single_bucket_indices point_indices points num_buckets zero_element' t
    buckets = Some b' ->
  b' = buckets.
Proof.
  unfold accumulate_buckets_kernel.
  destruct (rd single_bucket_indices _); simpl; [|done].
  destruct (rd bucket_sizes _) as [size|]; simpl; [|done].
  destruct (rd bucket_offsets _); simpl; [|done].
  destruct (size =? 0); [by intros [= <-]|].
  generalize (Z.to_nat num_buckets) as n. generalize 0 at 1 as lo.
  intros lo n. revert lo. induction n as [|n IH]; intros lo; simpl.
  - by intros [= <-].
  - destruct (thrust_reduce _ _ _ _ _); simpl; [apply IH|done].
Qed.

(** With its three reads inside the arrays and eight buckets for
    [thrust::reduce] to range over, the tile runs to its end. *)
Lemma accumulate_buckets_kernel_runs (bucket_offsets bucket_sizes
    single_bucket_indices point_indices : list Z)
    (points : list (element fq)) (num_buckets : Z)
    (zero_element' : element fq) (t : tile) (buckets : list (element fq)) :
  0 <= slot t < Z.of_nat (length single_bucket_indices) ->
  0 <= slot t < Z.of_nat (length bucket_sizes) ->
  0 <= slot t < Z.of_nat (length bucket_offsets) ->
  (8 <= length buckets)%nat ->
  accumulate_buckets_kernel bucket_offsets bucket_sizes
    single_bucket_indices point_indices points num_buckets zero_element' t
    buckets = Some buckets.
Proof.
  intros H1 H2 H3 H8. unfold accumulate_buckets_kernel.
  destruct (rd_is_Some single_bucket_indices (slot t) H1) as [? ->].
  destruct (rd_is_Some bucket_sizes (slot t) H2) as [size ->].
  destruct (rd_is_Some bucket_offsets (slot t) H3) as [? ->]. simpl.
  destruct (size =? 0); [done|].
  apply for_up_fixed. intros i _.
  assert (Hr : is_Some (thrust_reduce buckets 0 8 zero_element'
                          binaryElementAdd)).
  { unfold thrust_reduce.
    assert (Hm : is_Some (mapM (rd buckets) (seqZ 0 (8 - 0)))).
    { apply mapM_is_Some, Forall_seqZ. intros j Hj. simpl.
      apply rd_is_Some. lia. }
    destruct Hm as [vs ->]. simpl. eauto. }
  destruct Hr as [r ->]. reflexivity.
Qed.

(** [initialize_buckets_kernel] indexes the limbs by the global thread
    id: the tile of threads 0 .. 3 clears its bucket, a later tile
    indexes past the four limbs. *)
Lemma initialize_buckets_first_tile (t : tile) (bucket : list (element fq)) :
  tid t = 0 -> 0 <= slot t < Z.of_nat (length bucket) ->
  initialize_buckets_kernel t bucket =
  Some (<[Z.to_nat (slot t) := zero_element]> bucket).
Proof.
  intros Ht Hs. unfold initialize_buckets_kernel, wr. rewrite Ht. simpl.
  destruct (Z.leb_spec 0 (slot t)); [|lia].
  destruct (Z.ltb_spec (slot t) (Z.of_nat (length bucket))); [done|lia].
Qed.

Lemma initialize_buckets_later_tile (t : tile) (bucket : list (element fq)) :
  1 <= tid t -> initialize_buckets_kernel t bucket = None.
Proof.
  intros Ht. unfold initialize_buckets_kernel.
  destruct (Z.leb_spec 0 (tid t)); [|lia].
  destruct (Z.ltb_spec (tid t + 3) 4); [lia|done].
Qed.

Lemma length_prefix_sums acc sizes :
  length (prefix_sums acc sizes) = length sizes.
Proof.
  revert acc. induction sizes as [|n sizes IH]; intros acc; simpl; [done|].
  by rewrite IH.
Qed.

(** The accumulation stage leaves every bucket as it found it,
    whatever the sort stage handed over. *)
Lemma accumulate_stage_unchanged (srt : sorted_buckets) (num_buckets : Z)
    (points : list (element fq)) (zero_element' : element fq)
    (g : list tile) (buckets b' : list (element fq)) :
  launch
    (accumulate_buckets_kernel (bucket_offsets srt) (bucket_sizes srt)
       (single_bucket_indices srt) (sorted_point_indices srt) points
       num_buckets zero_element') g buckets = Some b' ->
  b' = buckets.
Proof.
  apply (launch_invariant (fun m => m = buckets)); [|done].
  intros t m m' -> Hk.
  by apply accumulate_buckets_kernel_unchanged in Hk.
Qed.

(** After the counting sort every tile of the stage runs to its end. *)
Lemma accumulate_stage_runs (num_buckets : Z)
    (bucket_indices point_indices : list Z) (points : list (element fq))
    (zero_element' : element fq) (buckets : list (element fq)) :
  num_buckets <= 2 ^ 32 -> (8 <= length buckets)%nat ->
  let srt := counting_sort num_buckets bucket_indices point_indices in
  launch
    (accumulate_buckets_kernel (bucket_offsets srt) (bucket_sizes srt)
       (single_bucket_indices srt) (sorted_point_indices srt) points
       num_buckets zero_element')
    (grid num_buckets) buckets = Some buckets.
Proof.
  intros Hn H8 srt. apply launch_fixed.
  eapply Forall_impl; [|apply slot_grid; lia].
  intros t Ht. simpl in Ht.
  assert (0 <= num_buckets).
  { destruct (Z.le_gt_cases 0 num_buckets); [done|]. unfold slot in Ht.
    assert (0 <= slot t) by (apply Z.mod_pos_bound; lia). unfold slot in *.
    lia. }
  apply accumulate_buckets_kernel_runs; [| | |done]; subst srt; simpl;
    rewrite ?length_prefix_sums, ?length_fmap, length_seqZ; lia.
Qed.

End Accumulation.

(** ** 4.4 Bucket-sum reducer over buckets that hold the identity *)

Section IdentityBuckets.
Context {fq : Type} `{Curve fq}.
Hypothesis add_zero_zero : add zero_element zero_element = zero_element.
Hypothesis doubling_zero : doubling zero_element = zero_element.

Lemma shl32_1 c : 0 <= c <= 30 -> shl32 1 c = 2 ^ c.
Proof.
  intros Hc. unfold shl32. destruct (Z.leb_spec 32 c); [lia|].
  rewrite Z.shiftl_1_l. unfold int32.
  assert (0 < 2 ^ c <= 2 ^ 30).
  { split; [apply Z.pow_pos_nonneg; lia | apply Z.pow_le_mono_r; lia]. }
  rewrite Z.mod_small; lia.
Qed.

Lemma bucket_running_sum_identity (nb nm : nat) (c : Z) (t : tile) :
  1 <= c <= 30 ->
  0 <= slot t < Z.of_nat nm ->
  (slot t + 1) * 2 ^ c <= Z.of_nat nb < 2 ^ 32 ->
  bucket_running_sum_kernel (replicate nb zero_element) c t
    (replicate nm zero_element) = Some (replicate nm zero_element).
Proof.
  intros Hc Hs Hnb. unfold bucket_running_sum_kernel.
  rewrite shl32_1 by lia.
  assert (Hp : 2 ^ 1 <= 2 ^ c) by (apply Z.pow_le_mono_r; lia).
  change (2 ^ 1) with 2 in Hp.
  set (p := 2 ^ c) in *.
  assert (Hw : slot t * p + p <= Z.of_nat nb) by lia.
  assert (0 <= slot t * p) by nia.
  replace ((slot t + 1) * p - 1) with (slot t * p + (p - 1)) by lia.
  rewrite (uint32_small (slot t * p + (p - 1))) by lia.
  rewrite rd_replicate by lia. simpl.
  rewrite wr_replicate_same by lia. simpl.
  rewrite (uint32_small (p - 2)) by lia.
  rewrite (for_down_fixed _ _ (zero_element, zero_element)).
  - simpl. apply wr_replicate_same. lia.
  - intros i Hi. rewrite uint32_small by lia.
    rewrite rd_replicate by lia. simpl.
    rewrite !add_zero_zero, doubling_zero.
    by destruct (is_zero_element zero_element).
Qed.

Lemma running_sum_stage_identity (nb : nat) (nm c : Z) :
  1 <= c <= 30 -> 0 <= nm -> nm * 2 ^ c <= Z.of_nat nb < 2 ^ 32 ->
  launch (bucket_running_sum_kernel (replicate nb zero_element) c)
    (grid nm) (replicate (Z.to_nat nm) zero_element) =
  Some (replicate (Z.to_nat nm) zero_element).
Proof.
  intros Hc Hnm Hnb. apply launch_fixed.
  assert (Hp : 2 <= 2 ^ c).
  { change 2 with (2 ^ 1) at 1. apply Z.pow_le_mono_r; lia. }
  eapply Forall_impl; [|apply (slot_grid nm); nia].
  intros t Ht. simpl in Ht.
  apply bucket_running_sum_identity; [lia|lia|nia].
Qed.

End IdentityBuckets.

(** ** 4.6 The bucket method as a whole *)

Lemma bind_Some_l {A B} (a : A) (f : A -> option B) : Some a ≫= f = f a.
Proof. reflexivity. Qed.

Section BucketMethod.
Context {fq : Type} `{Curve fq}.

Lemma bucket_running_sum_kernel_length (buckets : list (element fq)) c t
    (final_sum fs' : list (element fq)) :
  bucket_running_sum_kernel buckets c t final_sum = Some fs' ->
  length fs' = length final_sum.
Proof.
  unfold bucket_running_sum_kernel.
  destruct (rd buckets _) as [line_sum|]; [|done]. rewrite bind_Some_l.
  destruct (wr final_sum _ _) as [fs1|] eqn:Hw1; [|done].
  rewrite bind_Some_l.
  destruct (for_down _ _ _) as [ls|]; [|done]. rewrite bind_Some_l.
  intros Hw2. apply wr_length in Hw1, Hw2. congruence.
Qed.

(** Fewer than 26 module sums: the final accumulation steps outside
    them, whatever the earlier stages did. *)
Lemma bucket_method_short (sorter : Z -> list Z -> list Z -> sorted_buckets)
    (c num_bucket_modules : Z)
    (zero_element' : element fq) (buckets points : list (element fq))
    (scalars : list fr_gpu) (npoints : Z) :
  num_bucket_modules < 26 ->
  bucket_method sorter c num_bucket_modules zero_element' buckets points
    scalars npoints = None.
Proof.
  intros Hnm. unfold bucket_method. cbv zeta.
  destruct (launch (split_scalars_kernel _ _ _ _) _ _) as [keyed|]; [|done].
  rewrite bind_Some_l.
  destruct (launch (accumulate_buckets_kernel _ _ _ _ _ _ _) _ _)
    as [buckets'|]; [|done].
  rewrite bind_Some_l.
  destruct (launch (bucket_running_sum_kernel _ _) _ _) as [fs|] eqn:Hfs;
    [|done].
  rewrite bind_Some_l. apply final_accumulation_short.
  assert (Hlen : length fs = Z.to_nat num_bucket_modules).
  { eapply (launch_invariant
              (fun m => length m = Z.to_nat num_bucket_modules)); [| |exact Hfs].
    - intros t m m' Hm Hk.
      apply bucket_running_sum_kernel_length in Hk. congruence.
    - apply length_replicate. }
  lia.
Qed.

Hypothesis add_zero_zero : add zero_element zero_element = zero_element.
Hypothesis doubling_zero : doubling zero_element = zero_element.

Lemma iter_doubling_zero (n : nat) :
  Nat.iter n doubling zero_element = zero_element.
Proof using doubling_zero.
  induction n as [|n IH]; [done|]. simpl. by rewrite IH.
Qed.

Lemma final_accumulation_identity (n : nat) (num_bucket_modules c : Z) :
  (26 <= n)%nat ->
  final_accumulation_kernel (replicate n zero_element) num_bucket_modules c
  = Some zero_element.
Proof using add_zero_zero doubling_zero.
  intros Hn. rewrite final_accumulation_combine_26. unfold combine_26.
  apply for_down_fixed. intros i Hi.
  rewrite rd_replicate by lia. rewrite bind_Some_l.
  unfold scale_1024.
  rewrite (iter_doubling_zero 246), add_zero_zero, (iter_doubling_zero 10).
  rewrite add_zero_zero, doubling_zero.
  by destruct (is_zero_element zero_element).
Qed.

(** Over a bucket buffer that holds the identity everywhere, the bucket
    method can return nothing but the identity, whatever the points,
    the scalars and the sort stage: nothing the accumulation stage
    computes reaches the buckets. *)
Lemma bucket_method_identity_only
    (sorter : Z -> list Z -> list Z -> sorted_buckets)
    (c num_bucket_modules : Z)
    (zero_element' : element fq) (points : list (element fq))
    (scalars : list fr_gpu) (npoints : Z) (nb : nat) (r : element fq) :
  1 <= c <= 30 -> 26 <= num_bucket_modules ->
  Z.of_nat nb = num_bucket_modules * 2 ^ c -> Z.of_nat nb < 2 ^ 32 ->
  bucket_method sorter c num_bucket_modules zero_element'
    (replicate nb zero_element) points scalars npoints = Some r ->
  r = zero_element.
Proof using add_zero_zero doubling_zero.
  intros Hc Hnm Hnb Hlt. unfold bucket_method. cbv zeta.
  destruct (launch (split_scalars_kernel _ _ _ _) _ _) as [keyed|]; [|done].
  rewrite bind_Some_l.
  destruct (launch (accumulate_buckets_kernel _ _ _ _ _ _ _) _ _)
    as [buckets'|] eqn:Hacc; [|done].
  apply accumulate_stage_unchanged in Hacc. subst buckets'.
  rewrite bind_Some_l.
  rewrite running_sum_stage_identity by (auto; lia).
  rewrite bind_Some_l.
  rewrite final_accumulation_identity by lia. congruence.
Qed.

(** With the counting sort as the sort stage it does return it. *)
Lemma bucket_method_identity (c num_bucket_modules : Z)
    (zero_element' : element fq) (points : list (element fq))
    (scalars : list fr_gpu) (npoints : Z) (nb : nat) :
  1 <= c <= 30 -> 26 <= num_bucket_modules ->
  Z.of_nat nb = num_bucket_modules * 2 ^ c -> Z.of_nat nb < 2 ^ 32 ->
  is_Some (launch
    (split_scalars_kernel scalars npoints num_bucket_modules c)
    (seqZ 0 npoints)
    (replicate (Z.to_nat (num_bucket_modules * npoints)) 0,
     replicate (Z.to_nat (num_bucket_modules * npoints)) 0)) ->
  bucket_method counting_sort c num_bucket_modules zero_element'
    (replicate nb zero_element) points scalars npoints = Some zero_element.
Proof using add_zero_zero doubling_zero.
  intros Hc Hnm Hnb Hlt [keyed Hsplit].
  assert (Hp : 2 ^ 1 <= 2 ^ c) by (apply Z.pow_le_mono_r; lia).
  change (2 ^ 1) with 2 in Hp.
  unfold bucket_method. cbv zeta. rewrite Hsplit, bind_Some_l.
  rewrite accumulate_stage_runs;
    [|lia|rewrite length_replicate; nia].
  rewrite bind_Some_l.
  rewrite running_sum_stage_identity by (auto; lia).
  rewrite bind_Some_l.
  apply final_accumulation_identity. lia.
Qed.

End BucketMethod.

(** ** The kernels on points of the curve *)

Section GroupLevel.
Context {fq : Type} `{Curve fq} {order : Z} {valid : element fq -> Prop}
  {dlog : element fq -> Z} `{!CurveLaws order valid dlog}.

Lemma dlog_mod (P : element fq) : valid P -> dlog P mod order = dlog P.
Proof. intros HP. apply Z.mod_small, dlog_range, HP. Qed.

(** An addition followed by the doubling substitution is the group law,
    whichever operand is doubled. *)
Lemma substituted_add (P Q R : element fq) :
  valid P -> valid Q -> R = P \/ R = Q ->
  valid (if is_zero_element (add P Q) then doubling R else add P Q) /\
  dlog (if is_zero_element (add P Q) then doubling R else add P Q)
  = (dlog P + dlog Q) mod order.
Proof.
  intros HP HQ HR.
  assert (HvR : valid R) by (destruct HR; subst; done).
  assert (Hr : valid (add P Q)) by (by apply add_valid).
  destruct (decide (dlog P = dlog Q)) as [Heq|Hne].
  - assert (Hd : dlog (doubling R) = (dlog P + dlog Q) mod order).
    { rewrite doubling_dlog by done. f_equal.
      destruct HR; subst; lia. }
    destruct (add_same P Q HP HQ Heq) as [Hz|Hs].
    + rewrite Hz. split; [by apply doubling_valid|done].
    + destruct (is_zero_element (add P Q)).
      * split; [by apply doubling_valid|done].
      * split; [done|]. rewrite Hs. f_equal. lia.
  - destruct (add_dlog P Q HP HQ Hne) as [Hs Hz]. rewrite Hz. done.
Qed.

Lemma guarded_add_dlog (P Q : element fq) :
  valid P -> valid Q ->
  valid (guarded_add P Q) /\
  dlog (guarded_add P Q) = (dlog P + dlog Q) mod order.
Proof. intros HP HQ. apply (substituted_add P Q P); auto. Qed.


(** The raw formula is the group law as soon as the operands differ or
    one of them is the identity. *)
Lemma add_dlog_identity (P Q : element fq) :
  valid P -> valid Q -> dlog P = 0 \/ dlog Q = 0 ->
  dlog (add P Q) = (dlog P + dlog Q) mod order.
Proof.
  intros HP HQ H0.
  destruct (decide (dlog P = dlog Q)) as [Heq|Hne].
  - assert (HP0 : dlog P = 0) by lia. assert (HQ0 : dlog Q = 0) by lia.
    rewrite HP0, HQ0. simpl. rewrite Z.mod_0_l by (pose proof order_pos; lia).
    destruct (add_same P Q HP HQ Heq) as [Hz|Hs].
    + apply is_zero_dlog; [by apply add_valid|done].
    + rewrite Hs, HP0. simpl. apply Z.mod_0_l. pose proof order_pos; lia.
  - by destruct (add_dlog P Q HP HQ Hne).
Qed.

Lemma iter_doubling_dlog (n : nat) (P : element fq) :
  valid P ->
  valid (Nat.iter n doubling P) /\
  dlog (Nat.iter n doubling P) = (2 ^ Z.of_nat n * dlog P) mod order.
Proof.
  intros HP. induction n as [|n [IHv IHd]].
  - simpl. split; [done|]. rewrite Z.mul_1_l. symmetry. by apply dlog_mod.
  - split; [by apply doubling_valid|].
    change (Nat.iter (S n) doubling P) with (doubling (Nat.iter n doubling P)).
    rewrite doubling_dlog, IHd by done.
    rewrite Nat2Z.inj_succ, Z.pow_succ_r by lia.
    rewrite Z.mul_mod_idemp_r by (pose proof order_pos; lia).
    f_equal. lia.
Qed.

Lemma recombine_snoc (c : Z) (l : list Z) (d : Z) :
  0 <= c ->
  recombine c (l ++ [d]) = recombine c l + 2 ^ (c * Z.of_nat (length l)) * d.
Proof.
  intros Hc. induction l as [|a l IH]; simpl recombine; simpl length.
  - rewrite !Z.mul_0_r. change (2 ^ 0) with 1. lia.
  - rewrite IH, Nat2Z.inj_succ, Z.mul_succ_r, Z.pow_add_r by lia. ring.
Qed.

Lemma scale_1024_dlog (Q : element fq) :
  valid Q ->
  valid (scale_1024 Q) /\
  dlog (scale_1024 Q) = (2 ^ 10 * dlog Q) mod order.
Proof.
  intros HQ. unfold scale_1024.
  destruct (iter_doubling_dlog 246 zero_element valid_zero) as [Hv Hd].
  rewrite dlog_zero, Z.mul_0_r, Z.mod_0_l in Hd
    by (pose proof order_pos; lia).
  assert (Ha : valid (add Q (Nat.iter 246 doubling zero_element)))
    by (by apply add_valid).
  destruct (iter_doubling_dlog 10 _ Ha) as [Hv' Hd'].
  split; [done|]. rewrite Hd'.
  rewrite add_dlog_identity, Hd, Z.add_0_r by auto.
  rewrite Z.mul_mod_idemp_r by (pose proof order_pos; lia). reflexivity.
Qed.

(** The loop both accumulations share, cut after [n] slots: scale the
    running result by [2^c], then add slot [z - 1] with the doubling
    substitution. *)
Lemma horner_loop_dlog (scale : element fq -> element fq) (c : Z)
    (final_sum : list (element fq)) (n : nat) :
  0 <= c ->
  (forall Q, valid Q ->
     valid (scale Q) /\ dlog (scale Q) = (2 ^ c * dlog Q) mod order) ->
  Forall valid final_sum -> (n <= length final_sum)%nat ->
  forall acc, valid acc ->
  exists r,
    for_down n (fun z result =>
      s ← rd final_sum (z - 1);
      Some (if is_zero_element (add (scale result) s)
            then doubling (scale result) else add (scale result) s)) acc
    = Some r /\
    valid r /\
    dlog r = (dlog acc * 2 ^ (c * Z.of_nat n)
              + recombine c (dlog <$> take n final_sum)) mod order.
Proof.
  intros Hc Hscale Hfs. pose proof order_pos as HN.
  induction n as [|n IH]; intros Hn acc Hacc.
  - exists acc. simpl.
    rewrite Z.mul_0_r, Z.mul_1_r, Z.add_0_r, dlog_mod by done. done.
  - rewrite for_down_S.
    destruct (lookup_lt_is_Some_2 final_sum n) as [s Hs]; [lia|].
    assert (Hrd : rd final_sum (Z.of_nat (S n) - 1) = Some s).
    { unfold rd. destruct (Z.ltb_spec (Z.of_nat (S n) - 1) 0); [lia|].
      replace (Z.to_nat (Z.of_nat (S n) - 1)) with n by lia. done. }
    rewrite Hrd. simpl.
    assert (Hvs : valid s) by (eapply Forall_lookup_1; eauto).
    destruct (Hscale acc Hacc) as [HvR HdR].
    destruct (substituted_add (scale acc) s (scale acc) HvR Hvs)
      as [Hv1 Hd1]; [auto|].
    destruct (IH ltac:(lia) _ Hv1) as (r & Hr & Hvr & Hdr).
    exists r. split; [exact Hr|]. split; [done|].
    rewrite Hdr, Hd1, HdR.
    rewrite (take_S_r _ _ s) by done.
    rewrite fmap_app. simpl fmap. rewrite recombine_snoc by lia.
    rewrite length_fmap, length_take, Nat.min_l by lia.
    replace (c * Z.of_nat (S n)) with (c + c * Z.of_nat n) by lia.
    rewrite (Z.pow_add_r 2 c) by lia.
    Z.mod_equality.
Qed.

(** On points of the curve [final_accumulation_kernel] returns
    [Sum_{i < 26} 2^(10 i) * final_sum[i]], whatever [num_bucket_modules]
    and [c] it is given. *)
Lemma final_accumulation_dlog (final_sum : list (element fq))
    (num_bucket_modules c : Z) :
  Forall valid final_sum -> (26 <= length final_sum)%nat ->
  exists r,
    final_accumulation_kernel final_sum num_bucket_modules c = Some r /\
    valid r /\
    dlog r = recombine 10 (dlog <$> take 26 final_sum) mod order.
Proof.
  intros Hfs Hlen. rewrite final_accumulation_combine_26. unfold combine_26.
  destruct (horner_loop_dlog scale_1024 10 final_sum 26 ltac:(lia)
              scale_1024_dlog Hfs Hlen zero_element valid_zero)
    as (r & Hr & Hv & Hd).
  exists r. split; [exact Hr|]. split; [done|].
  rewrite Hd, dlog_zero. f_equal.
Qed.

(** The accumulation of the specification returns
    [Sum_{i < num_bucket_modules} 2^(c i) * final_sum[i]]. *)
Lemma final_accumulation_spec_dlog (final_sum : list (element fq))
    (num_bucket_modules c : Z) :
  Forall valid final_sum -> 0 <= c ->
  (Z.to_nat num_bucket_modules <= length final_sum)%nat ->
  exists r,
    final_accumulation_spec final_sum num_bucket_modules c = Some r /\
    valid r /\
    dlog r = recombine c (dlog <$> take (Z.to_nat num_bucket_modules)
                                        final_sum) mod order.
Proof.
  intros Hfs Hc Hlen. unfold final_accumulation_spec, guarded_add.
  destruct (horner_loop_dlog (Nat.iter (Z.to_nat c) doubling) c final_sum
              (Z.to_nat num_bucket_modules) Hc) with (acc := zero_element)
    as (r & Hr & Hv & Hd); [|done|done|apply valid_zero|].
  - intros Q HQ. destruct (iter_doubling_dlog (Z.to_nat c) Q HQ) as [? Hd].
    split; [done|]. rewrite Hd, Z2Nat.id by lia. done.
  - exists r. split; [exact Hr|]. split; [done|].
    rewrite Hd, dlog_zero. f_equal.
Qed.

(** With 26 module sums and window width 10, the configuration its
    constants are written for, the kernel returns the point the
    specification asks for. *)
Lemma final_accumulation_window_10 (final_sum : list (element fq)) :
  Forall valid final_sum -> length final_sum = 26%nat ->
  exists r r',
    final_accumulation_kernel final_sum 26 10 = Some r /\
    final_accumulation_spec final_sum 26 10 = Some r' /\
    dlog r = dlog r'.
Proof.
  intros Hfs Hlen.
  destruct (final_accumulation_dlog final_sum 26 10 Hfs ltac:(lia))
    as (r & Hr & _ & Hd).
  destruct (final_accumulation_spec_dlog final_sum 26 10 Hfs ltac:(lia)
              ltac:(lia)) as (r' & Hr' & _ & Hd').
  exists r, r'. split; [done|]. split; [done|].
  rewrite Hd, Hd'. reflexivity.
Qed.

Lemma wsum_S_r (f : Z -> Z) (n : nat) : forall lo,
  wsum f lo (S n)
  = wsum f lo n + (lo + Z.of_nat n) * f (lo + Z.of_nat n).
Proof.
  induction n as [|n IH]; intros lo.
  - simpl. rewrite !Z.add_0_r. lia.
  - change (wsum f lo (S (S n))) with (lo * f lo + wsum f (lo + 1) (S n)).
    rewrite IH. simpl wsum.
    replace (lo + 1 + Z.of_nat n) with (lo + Z.of_nat (S n)) by lia. lia.
Qed.

Lemma point_mul_dlog (n : nat) (P : element fq) :
  valid P ->
  valid (point_mul n P) /\
  dlog (point_mul n P) = (Z.of_nat n * dlog P) mod order.
Proof.
  intros HP. pose proof order_pos as HN.
  induction n as [|n [IHv IHd]].
  - simpl. split; [apply valid_zero|]. by rewrite dlog_zero, Z.mod_0_l by lia.
  - simpl point_mul.
    destruct (guarded_add_dlog (point_mul n P) P IHv HP) as [Hv Hd].
    split; [done|]. rewrite Hd, IHd, Nat2Z.inj_succ. Z.mod_equality.
Qed.

(** The loop of [bucket_running_sum_kernel] over buckets
    [base + n .. base + 1], from the accumulator [ls] and the total
    [tot]. *)
Lemma running_loop_dlog (buckets : list (element fq)) (base : Z)
    (B : Z -> element fq) (n : nat) :
  (forall d, 1 <= d <= Z.of_nat n ->
     rd buckets (uint32 (base + d)) = Some (B d) /\ valid (B d)) ->
  forall ls tot, valid ls -> valid tot ->
  no_clash order (fun d => dlog (B d)) n (dlog ls) ->
  exists ls' tot',
    for_down n (fun i ls =>
      b ← rd buckets (uint32 (base + i));
      let line_sum := add b (fst ls) in
      let total := add line_sum (snd ls) in
      Some (line_sum,
            if is_zero_element total then doubling line_sum else total))
      (ls, tot) = Some (ls', tot') /\
    valid tot' /\
    dlog tot' = (dlog tot + Z.of_nat n * dlog ls
                 + wsum (fun d => dlog (B d)) 1 n) mod order.
Proof.
  pose proof order_pos as HN.
  induction n as [|n IH]; intros HB ls tot Hls Htot Hclash.
  - exists ls, tot. simpl. split; [done|]. split; [done|].
    rewrite Z.add_0_r, Z.add_0_r, dlog_mod by done. done.
  - rewrite for_down_S.
    destruct (HB (Z.of_nat (S n))) as [Hrd Hvb]; [lia|].
    rewrite Hrd. simpl mbind. simpl fst. simpl snd.
    destruct Hclash as [Hstep Hrest].
    set (b := B (Z.of_nat (S n))) in *.
    assert (Hvl : valid (add b ls)) by (by apply add_valid).
    assert (Hdl : dlog (add b ls) = (dlog b + dlog ls) mod order).
    { destruct Hstep as [Hne|H0].
      - by destruct (add_dlog b ls Hvb Hls Hne).
      - apply add_dlog_identity; auto. }
    destruct (substituted_add (add b ls) tot (add b ls) Hvl Htot)
      as [Hvt Hdt]; [auto|].
    rewrite <- Hdl in Hrest.
    destruct (IH ltac:(intros; apply HB; lia) _ _ Hvl Hvt Hrest)
      as (ls' & tot' & Hrun & Hv' & Hd').
    exists ls', tot'. split; [exact Hrun|]. split; [done|].
    rewrite Hd', Hdt, Hdl, wsum_S_r.
    replace (1 + Z.of_nat n) with (Z.of_nat (S n)) by lia. fold b.
    rewrite (Nat2Z.inj_succ n). unfold Z.succ.
    Z.mod_equality.
Qed.

(** On points of the curve, and as long as the running accumulator
    never meets a bucket sum equal to itself, [bucket_running_sum_kernel]
    leaves [Sum_{d=1}^{2^c-1} d * bucket_sum[d]] in the slot of its
    module; [B d] is bucket [d] of the module. *)
Lemma bucket_running_sum_dlog (buckets : list (element fq)) (c : Z)
    (t : tile) (final_sum : list (element fq)) (B : Z -> element fq) :
  1 <= c <= 30 ->
  0 <= slot t < Z.of_nat (length final_sum) ->
  (slot t + 1) * 2 ^ c <= Z.of_nat (length buckets) < 2 ^ 32 ->
  (forall d, 1 <= d < 2 ^ c ->
     rd buckets (slot t * 2 ^ c + d) = Some (B d) /\ valid (B d)) ->
  no_clash order (fun d => dlog (B d)) (Z.to_nat (2 ^ c - 2))
           (dlog (B (2 ^ c - 1))) ->
  exists total,
    bucket_running_sum_kernel buckets c t final_sum
    = Some (<[Z.to_nat (slot t) := total]> final_sum) /\
    valid total /\
    dlog total
    = wsum (fun d => dlog (B d)) 1 (Z.to_nat (2 ^ c - 1)) mod order.
Proof.
  intros Hc Hs Hnb HB Hclash. pose proof order_pos as HN.
  unfold bucket_running_sum_kernel. rewrite shl32_1 by lia.
  assert (Hp : 2 ^ 1 <= 2 ^ c) by (apply Z.pow_le_mono_r; lia).
  change (2 ^ 1) with 2 in Hp.
  set (p := 2 ^ c) in *. set (w := slot t) in *.
  assert (Hw : w * p + p <= Z.of_nat (length buckets)) by lia.
  assert (0 <= w * p) by nia.
  replace ((w + 1) * p - 1) with (w * p + (p - 1)) by lia.
  rewrite (uint32_small (w * p + (p - 1))) by lia.
  destruct (HB (p - 1)) as [Htop Hvtop]; [lia|].
  rewrite Htop, bind_Some_l.
  assert (Hwr : forall (fs : list (element fq)) v,
            length fs = length final_sum ->
            wr fs w v = Some (<[Z.to_nat w := v]> fs)).
  { intros fs v Hl. unfold wr. rewrite Hl.
    destruct (Z.leb_spec 0 w); [|lia].
    destruct (Z.ltb_spec w (Z.of_nat (length final_sum))); [done|lia]. }
  rewrite Hwr, bind_Some_l by done.
  rewrite (uint32_small (p - 2)) by lia.
  destruct (running_loop_dlog buckets (w * p) B (Z.to_nat (p - 2)))
    with (ls := B (p - 1)) (tot := B (p - 1))
    as (ls' & tot' & Hrun & Hv' & Hd'); [|done|done|done|].
  { intros d Hd. rewrite uint32_small by lia. apply HB. lia. }
  cbv zeta in Hrun. rewrite Hrun, bind_Some_l. simpl snd.
  rewrite Hwr by apply length_insert.
  rewrite list_insert_insert_eq.
  exists tot'. split; [done|]. split; [done|].
  rewrite Hd'.
  replace (Z.to_nat (p - 1)) with (S (Z.to_nat (p - 2))) by lia.
  rewrite wsum_S_r.
  replace (1 + Z.of_nat (Z.to_nat (p - 2))) with (p - 1) by lia.
  replace (Z.of_nat (Z.to_nat (p - 2))) with (p - 2) by lia.
  f_equal. lia.
Qed.

(** The weighted sum of the specification, cut to buckets
    [lo .. lo + n - 1]. *)
Lemma weighted_loop_dlog (buckets : list (element fq)) (base : Z)
    (B : Z -> element fq) (n : nat) : forall lo acc,
  0 <= lo ->
  (forall d, lo <= d < lo + Z.of_nat n ->
     rd buckets (base + d) = Some (B d) /\ valid (B d)) ->
  valid acc ->
  exists r,
    for_up n lo (fun d acc =>
      b ← rd buckets (base + d);
      Some (guarded_add acc (point_mul (Z.to_nat d) b))) acc = Some r /\
    valid r /\
    dlog r = (dlog acc + wsum (fun d => dlog (B d)) lo n) mod order.
Proof.
  pose proof order_pos as HN.
  induction n as [|n IH]; intros lo acc Hlo HB Hacc.
  - exists acc. simpl. rewrite Z.add_0_r, dlog_mod by done. done.
  - simpl for_up. destruct (HB lo) as [Hrd Hvb]; [lia|].
    rewrite Hrd, bind_Some_l.
    destruct (point_mul_dlog (Z.to_nat lo) (B lo) Hvb) as [Hvm Hdm].
    destruct (guarded_add_dlog acc _ Hacc Hvm) as [Hvg Hdg].
    destruct (IH (lo + 1) _ ltac:(lia) ltac:(intros; apply HB; lia) Hvg)
      as (r & Hr & Hvr & Hdr).
    exists r. split; [exact Hr|]. split; [done|].
    rewrite Hdr, Hdg, Hdm, Z2Nat.id by lia. simpl wsum.
    Z.mod_equality.
Qed.

(** The running sum refines the weighted sum of the specification on
    every module whose bucket sums never meet the running accumulator. *)
Lemma bucket_running_sum_refines (buckets : list (element fq)) (c : Z)
    (t : tile) (final_sum : list (element fq)) (B : Z -> element fq) :
  1 <= c <= 30 ->
  0 <= slot t < Z.of_nat (length final_sum) ->
  (slot t + 1) * 2 ^ c <= Z.of_nat (length buckets) < 2 ^ 32 ->
  (forall d, 1 <= d < 2 ^ c ->
     rd buckets (slot t * 2 ^ c + d) = Some (B d) /\ valid (B d)) ->
  no_clash order (fun d => dlog (B d)) (Z.to_nat (2 ^ c - 2))
           (dlog (B (2 ^ c - 1))) ->
  exists total W,
    bucket_running_sum_kernel buckets c t final_sum
    = Some (<[Z.to_nat (slot t) := total]> final_sum) /\
    weighted_sum_spec buckets c (slot t) = Some W /\
    dlog total = dlog W.
Proof.
  intros Hc Hs Hnb HB Hclash. pose proof order_pos as HN.
  destruct (bucket_running_sum_dlog buckets c t final_sum B Hc Hs Hnb HB
              Hclash) as (total & Hk & _ & Hd).
  assert (Hp : 2 ^ 1 <= 2 ^ c) by (apply Z.pow_le_mono_r; lia).
  change (2 ^ 1) with 2 in Hp.
  destruct (weighted_loop_dlog buckets (slot t * 2 ^ c) B
              (Z.to_nat (2 ^ c - 1)) 1 zero_element)
    as (W & HW & _ & HdW); [lia| |apply valid_zero|].
  { intros d Hd'. apply HB. lia. }
  exists total, W. split; [done|]. split; [exact HW|].
  rewrite Hd, HdW, dlog_zero. f_equal.
Qed.

End GroupLevel.

(** ** Further properties of the kernels *)


(** *** Digit decomposer *)

(** X1.  Bit [n] of the digit of window [num] is bit [num * c + n] of the
    scalar, also where the window runs over a limb boundary or over the
    top of the fourth limb; the digit has no bit from [c] up. *)
Theorem decompose_scalar_digit_bits (s : fr_gpu) (num c : Z) :
  fr_wf s -> 0 <= c <= 31 -> 0 <= num -> num * c < 256 ->
  exists d,
    decompose_scalar_digit s num c = Some d /\
    0 <= d < 2 ^ c /\
    forall n, 0 <= n < c ->
      Z.testbit d n = Z.testbit (scalar_value s) (num * c + n).
Proof.
  intros Hwf Hc Hnum Hlt.
  exists ((scalar_value s / 2 ^ (num * c)) mod 2 ^ c).
  split; [by apply decompose_scalar_digit_window|].
  assert (0 < 2 ^ c) by (apply Z.pow_pos_nonneg; lia).
  split; [apply Z.mod_pos_bound; lia|].
  intros n Hn.
  rewrite Z.mod_pow2_bits_low by lia.
  rewrite <- Z.shiftr_div_pow2, Z.shiftr_spec by lia.
  f_equal. lia.
Qed.

Lemma decompose_scalar_digit_bits_witness :
  exists d,
    decompose_scalar_digit fr_max 6 10 = Some d /\
    0 <= d < 2 ^ 10 /\
    forall n, 0 <= n < 10 ->
      Z.testbit d n = Z.testbit (scalar_value fr_max) (6 * 10 + n).
Proof.
  apply (decompose_scalar_digit_bits fr_max 6 10).
  - split; [reflexivity|]. unfold limb_ok. repeat constructor; done.
  - lia.
  - lia.
  - lia.
Defined.

(** X2.  A window that starts past the fourth limb reads outside the limb
    array: the decomposer guards only the read of the next limb, not the
    read of [data[limb_lsb_idx]]. *)
Theorem decompose_scalar_digit_outside (s : fr_gpu) (num width : Z) :
  fr_wf s -> 256 <= num * width < 2 ^ 32 ->
  decompose_scalar_digit s num width = None.
Proof.
  intros [Hlen _] Hk. unfold decompose_scalar_digit.
  rewrite uint32_small by lia.
  rewrite (rd_short (data s) (num * width / 64)); [reflexivity|].
  rewrite Hlen. apply Z.div_le_lower_bound; lia.
Qed.

Lemma decompose_scalar_digit_outside_witness :
  decompose_scalar_digit fr_max 26 10 = None.
Proof.
  apply (decompose_scalar_digit_outside fr_max 26 10).
  - split; [reflexivity|]. unfold limb_ok. repeat constructor; done.
  - lia.
Defined.

(** X3.  A window that lies above the bits of the scalar yields the digit
    0: the top digits are zero-padded. *)
Theorem decompose_scalar_digit_above (s : fr_gpu) (num c : Z) :
  fr_wf s -> 0 <= c <= 31 -> 0 <= num -> num * c < 256 ->
  scalar_value s < 2 ^ (num * c) ->
  decompose_scalar_digit s num c = Some 0.
Proof.
  intros Hwf Hc Hnum Hlt Hv.
  rewrite decompose_scalar_digit_window by done.
  rewrite Z.div_small; [reflexivity|].
  split; [|done]. destruct Hwf. by apply limbs_value_nonneg.
Qed.

Lemma decompose_scalar_digit_above_witness :
  decompose_scalar_digit (fr_of_Z 1000) 1 10 = Some 0.
Proof.
  apply (decompose_scalar_digit_above (fr_of_Z 1000) 1 10).
  - split; [reflexivity|]. unfold limb_ok. repeat constructor; done.
  - lia.
  - lia.
  - lia.
  - vm_compute. reflexivity.
Defined.

(** *** Loops and arrays, continued *)

Lemma for_down_ext_range {S} (n : nat) (f g : Z -> S -> option S) (s : S) :
  (forall i s, 1 <= i <= Z.of_nat n -> f i s = g i s) ->
  for_down n f s = for_down n g s.
Proof.
  revert s. induction n as [|n IH]; intros s Hfg; [done|].
  rewrite !for_down_S, Hfg by lia.
  destruct (g _ s); simpl; [|done]. apply IH. intros. apply Hfg. lia.
Qed.

Lemma for_up_ext_range {S} (n : nat) (lo : Z) (f g : Z -> S -> option S)
    (s : S) :
  (forall i s, lo <= i < lo + Z.of_nat n -> f i s = g i s) ->
  for_up n lo f s = for_up n lo g s.
Proof.
  revert lo s. induction n as [|n IH]; intros lo s Hfg; [done|].
  simpl. rewrite Hfg by lia.
  destruct (g _ s); simpl; [|done]. apply IH. intros. apply Hfg. lia.
Qed.

Lemma for_down_total {S} (n : nat) (body : Z -> S -> option S) (s : S) :
  (forall i s, 1 <= i <= Z.of_nat n -> is_Some (body i s)) ->
  is_Some (for_down n body s).
Proof.
  revert s. induction n as [|n IH]; intros s Hb; [by eexists|].
  rewrite for_down_S. destruct (Hb (Z.of_nat (Datatypes.S n)) s ltac:(lia))
    as [s' ->].
  rewrite bind_Some_l. apply IH. intros. apply Hb. lia.
Qed.

(** A loop that meets an index on which its body fails, fails. *)
Lemma for_up_fails {S} (n : nat) (lo : Z) (body : Z -> S -> option S)
    (s : S) (i : Z) :
  lo <= i < lo + Z.of_nat n -> (forall s, body i s = None) ->
  for_up n lo body s = None.
Proof.
  revert lo s. induction n as [|n IH]; intros lo s Hi Hb; [lia|].
  simpl. destruct (decide (i = lo)) as [->|Hne].
  - by rewrite Hb.
  - destruct (body lo s); simpl; [|done]. apply IH; [lia|done].
Qed.

Lemma rd_insert_ne {A} (a : list A) (i j : Z) (v : A) :
  0 <= i -> i <> j -> rd (<[Z.to_nat i := v]> a) j = rd a j.
Proof.
  intros Hi Hne. unfold rd. destruct (Z.ltb_spec j 0); [done|].
  apply list_lookup_insert_ne. lia.
Qed.

Lemma rd_insert_eq {A} (a : list A) (i : Z) (v : A) :
  0 <= i < Z.of_nat (length a) -> rd (<[Z.to_nat i := v]> a) i = Some v.
Proof.
  intros Hi. unfold rd. destruct (Z.ltb_spec i 0); [lia|].
  apply list_lookup_insert_eq. lia.
Qed.

Lemma rd_in_range {A} (a : list A) (i : Z) :
  is_Some (rd a i) <-> 0 <= i < Z.of_nat (length a).
Proof.
  split; [|apply rd_is_Some].
  intros [v Hv]. unfold rd in Hv. destruct (Z.ltb_spec i 0); [done|].
  apply lookup_lt_Some in Hv. lia.
Qed.

Lemma wr_Some {A} (a : list A) (i : Z) (v : A) :
  0 <= i < Z.of_nat (length a) -> wr a i v = Some (<[Z.to_nat i := v]> a).
Proof.
  intros Hi. unfold wr.
  destruct (Z.leb_spec 0 i); [|lia].
  destruct (Z.ltb_spec i (Z.of_nat (length a))); [done|lia].
Qed.

Lemma wr_inv {A} (a a' : list A) (i : Z) (v : A) :
  wr a i v = Some a' ->
  0 <= i < Z.of_nat (length a) /\ a' = <[Z.to_nat i := v]> a.
Proof.
  unfold wr. destruct (Z.leb_spec 0 i); [|done].
  destruct (Z.ltb_spec i (Z.of_nat (length a))); [|done].
  simpl. intros [= <-]. split; [lia|done].
Qed.

Section Frames.
Context {fq : Type} `{Curve fq}.

(** *** Naive double-and-add kernel: bounds *)

(** X4.  [double_and_add_kernel] told of more points than one of its two
    input arrays holds reads outside that array. *)
Theorem double_and_add_kernel_short (test_scalars : list fr_gpu)
    (test_points : list (element fq)) (num_points : Z) :
  Z.of_nat (length test_scalars) < num_points \/
  Z.of_nat (length test_points) < num_points ->
  double_and_add_kernel test_scalars test_points num_points = None.
Proof.
  intros Hshort. unfold double_and_add_kernel.
  destruct Hshort as [Hs|Hp].
  - apply (for_up_fails _ _ _ _ (Z.of_nat (length test_scalars))); [lia|].
    intros s. by rewrite (rd_short test_scalars) by lia.
  - apply (for_up_fails _ _ _ _ (Z.of_nat (length test_points))); [lia|].
    intros s. rewrite (rd_short test_points) by lia.
    by destruct (rd test_scalars _).
Qed.

(** *** Final accumulation: the slots it reads *)

Lemma final_accumulation_take (final_sum : list (element fq))
    (num_bucket_modules c : Z) :
  final_accumulation_kernel (take 26 final_sum) num_bucket_modules c
  = final_accumulation_kernel final_sum num_bucket_modules c.
Proof.
  unfold final_accumulation_kernel. apply for_down_ext_range.
  intros i s Hi.
  assert (Hrd : rd (take 26 final_sum) (i - 1) = rd final_sum (i - 1)).
  { unfold rd. destruct (Z.ltb_spec (i - 1) 0); [done|].
    apply lookup_take_lt. lia. }
  by rewrite Hrd.
Qed.

(** X5.  [final_accumulation_kernel] reads module slots 0 .. 25 and no
    other: it returns a result exactly when [final_sum] has at least 26
    slots, and whatever [final_sum] holds from slot 26 on has no effect
    on that result. *)
Theorem final_accumulation_slots (final_sum : list (element fq))
    (num_bucket_modules c : Z) :
  (is_Some (final_accumulation_kernel final_sum num_bucket_modules c) <->
   (26 <= length final_sum)%nat) /\
  final_accumulation_kernel (take 26 final_sum) num_bucket_modules c
  = final_accumulation_kernel final_sum num_bucket_modules c.
Proof.
  split; [split|].
  - intros Hsome. destruct (decide (26 <= length final_sum)%nat); [done|].
    rewrite final_accumulation_short in Hsome by lia. by destruct Hsome.
  - intros Hlen. rewrite final_accumulation_combine_26. unfold combine_26.
    apply for_down_total. intros i s Hi.
    destruct (rd_is_Some final_sum (i - 1) ltac:(lia)) as [v ->].
    by eexists.
  - apply final_accumulation_take.
Qed.

(** *** Bucket accumulation: what reaches the buckets *)

(** X6.  [accumulate_buckets_kernel] never changes a bucket: whenever a
    tile runs to its end, [buckets] is as the tile received it, whatever
    the sort stage handed over. *)
Theorem accumulate_buckets_kernel_inert (bucket_offsets bucket_sizes
    single_bucket_indices point_indices : list Z)
    (points : list (element fq)) (num_buckets : Z)
    (zero_element' : element fq) (t : tile)
    (buckets buckets' : list (element fq)) :
  accumulate_buckets_kernel bucket_offsets bucket_sizes
    single_bucket_indices point_indices points num_buckets zero_element' t
    buckets = Some buckets' ->
  buckets' = buckets.
Proof.
  unfold accumulate_buckets_kernel.
  destruct (rd single_bucket_indices _); [|done]. rewrite bind_Some_l.
  destruct (rd bucket_sizes _) as [bucket_size|]; [|done].
  rewrite bind_Some_l.
  destruct (rd bucket_offsets _); [|done]. rewrite bind_Some_l.
  destruct (bucket_size =? 0); [by intros [= <-]|].
  generalize 0 at 1 as lo. induction (Z.to_nat num_buckets) as [|n IH];
    intros lo; simpl; [by intros [= <-]|].
  destruct (thrust_reduce _ _ _ _ _); [|done]. rewrite !bind_Some_l.
  apply IH.
Qed.

(** *** Plain running sum: what it writes and what it reads *)

(** X7.  A tile of [bucket_running_sum_kernel] that runs to its end has
    written the slot of its module in [final_sum] and no other. *)
Theorem bucket_running_sum_kernel_writes (buckets : list (element fq))
    (c : Z) (t : tile) (final_sum fs' : list (element fq)) :
  bucket_running_sum_kernel buckets c t final_sum = Some fs' ->
  0 <= slot t < Z.of_nat (length final_sum) /\
  exists total, fs' = <[Z.to_nat (slot t) := total]> final_sum.
Proof.
  unfold bucket_running_sum_kernel.
  destruct (rd buckets _) as [line_sum|]; [|done]. rewrite bind_Some_l.
  destruct (wr final_sum _ _) as [fs1|] eqn:Hw1; [|done].
  rewrite bind_Some_l.
  destruct (for_down _ _ _) as [ls|]; [|done]. rewrite bind_Some_l.
  intros Hw2. apply wr_inv in Hw1 as [Hs ->]. apply wr_inv in Hw2 as [_ ->].
  split; [done|]. exists (snd ls). apply list_insert_insert_eq.
Qed.

(** X8.  [bucket_running_sum_kernel] never reads bucket 0 of its module:
    whatever that bucket holds, the tile behaves the same. *)
Theorem bucket_running_sum_kernel_skips_bucket_0
    (buckets : list (element fq)) (c : Z) (t : tile)
    (final_sum : list (element fq)) (b : element fq) :
  1 <= c <= 30 -> (slot t + 1) * 2 ^ c <= 2 ^ 32 ->
  bucket_running_sum_kernel
    (<[Z.to_nat (slot t * 2 ^ c) := b]> buckets) c t final_sum
  = bucket_running_sum_kernel buckets c t final_sum.
Proof.
  intros Hc Hw. unfold bucket_running_sum_kernel.
  rewrite shl32_1 by lia.
  assert (Hp : 2 ^ 1 <= 2 ^ c) by (apply Z.pow_le_mono_r; lia).
  change (2 ^ 1) with 2 in Hp.
  assert (Hs : 0 <= slot t) by (apply Z.mod_pos_bound; lia).
  set (p := 2 ^ c) in *. set (w := slot t) in *.
  assert (0 <= w * p) by nia.
  replace ((w + 1) * p - 1) with (w * p + (p - 1)) by lia.
  rewrite (uint32_small (w * p + (p - 1))) by lia.
  rewrite (uint32_small (p - 2)) by lia.
  rewrite rd_insert_ne by lia.
  destruct (rd buckets _) as [line_sum|]; [|done]. rewrite !bind_Some_l.
  destruct (wr final_sum _ _) as [fs1|]; [|done]. rewrite !bind_Some_l.
  f_equal. apply for_down_ext_range. intros i s Hi.
  rewrite uint32_small by lia. rewrite rd_insert_ne by lia. done.
Qed.

(** *** Windowed running sum, second pass *)

(** X9.  The result of [bucket_running_sum_kernel_3] does not depend on
    what [G_] holds: the sums it folds into [G_k] never reach [result]. *)
Theorem bucket_running_sum_kernel_3_ignores_G
    (S_ G_ G_' : list (element fq)) (M U : Z) (t : tile)
    (result : list (element fq)) :
  length G_ = length G_' ->
  bucket_running_sum_kernel_3 S_ G_ M U t result
  = bucket_running_sum_kernel_3 S_ G_' M U t result.
Proof.
  intros Hlen. unfold bucket_running_sum_kernel_3.
  assert (Hloop : forall n lo acc acc',
    is_Some (for_up n lo (fun m G_k =>
               g ← rd G_ (uint32 (slot t * (M - 1) + m));
               Some (add G_k g)) acc) <->
    is_Some (for_up n lo (fun m G_k =>
               g ← rd G_' (uint32 (slot t * (M - 1) + m));
               Some (add G_k g)) acc')).
  { induction n as [|n IH]; intros lo acc acc'; simpl; [by split; eauto|].
    pose proof (rd_in_range G_ (uint32 (slot t * (M - 1) + lo))) as Hi.
    pose proof (rd_in_range G_' (uint32 (slot t * (M - 1) + lo))) as Hi'.
    rewrite <- Hlen in Hi'. rewrite <- Hi' in Hi.
    destruct (rd G_ _) as [g|], (rd G_' _) as [g'|]; simpl.
    - apply IH.
    - destruct Hi as [Hi _]. destruct Hi as [? ?]; [eauto|done].
    - destruct Hi as [_ Hi]. destruct Hi as [? ?]; [eauto|done].
    - split; intros [? ?]; done. }
  specialize (Hloop (Z.to_nat M) 0 zero_element zero_element).
  destruct Hloop as [Hl Hr].
  destruct (for_up (Z.to_nat M) 0 _ zero_element) as [G_k|];
    destruct (for_up (Z.to_nat M) 0 _ zero_element) as [G_k'|].
  - reflexivity.
  - destruct Hl as [? ?]; [eauto|done].
  - destruct Hr as [? ?]; [eauto|done].
  - reflexivity.
Qed.

(** *** Comparator *)

(** X10.  [comparator_kernel] reports every point equal to the all-zero
    triple: both sides of its two comparisons carry a factor [z] of the
    other point. *)
Theorem comparator_kernel_zero (P : element fq) :
  (forall a, fq_mul a fq_zero = fq_zero) ->
  (forall a, fq_mul fq_zero a = fq_zero) ->
  fq_square fq_zero = fq_zero ->
  fq_eqb fq_zero fq_zero = true ->
  comparator_kernel P zero_element = true /\
  comparator_kernel zero_element P = true.
Proof.
  intros Hr Hl Hs He. unfold comparator_kernel, zero_element.
  cbn [x y z]. rewrite Hs, !Hl, !Hr, He. done.
Qed.

(** X11.  [comparator_kernel] reports two Jacobian representatives of one
    point equal: scaling [x] by [l^2], [y] by [l^3] and [z] by [l] is not
    seen. *)
Theorem comparator_kernel_rescale (P : element fq) (l : fq) :
  (forall a b, fq_mul a b = fq_mul b a) ->
  (forall a b c, fq_mul a (fq_mul b c) = fq_mul (fq_mul a b) c) ->
  (forall a, fq_square a = fq_mul a a) ->
  (forall a, fq_eqb a a = true) ->
  comparator_kernel P
    (mk_element (fq_mul (fq_square l) (x P))
                (fq_mul (fq_mul (fq_square l) l) (y P))
                (fq_mul l (z P))) = true.
Proof.
  intros Hc Ha Hs He. unfold comparator_kernel. cbn [x y z].
  rewrite !Hs.
  assert (Hi : forall a b c d,
    fq_mul (fq_mul a b) (fq_mul c d) = fq_mul (fq_mul a c) (fq_mul b d)).
  { intros a b c d.
    rewrite (Ha (fq_mul a b) c d), <- (Ha a b c), (Hc b c), (Ha a c b).
    symmetry. apply Ha. }
  set (X := x P). set (Y := y P). set (Z0 := z P).
  rewrite (Hi l Z0 l Z0), (Hi (fq_mul l l) (fq_mul Z0 Z0) l Z0).
  rewrite (Ha X), (Hc X), (Ha Y), (Hc Y), !He. done.
Qed.

End Frames.

(** *** Scalar splitting: the packed keys *)

(** The key of module [i] and digit [d]: [(i << c) | d] is [i * 2^c + d]
    as long as it fits 32 bits. *)
Lemma packed_key (i c d : Z) :
  0 <= c <= 31 -> 0 <= i -> i * 2 ^ c < 2 ^ 32 -> 0 <= d < 2 ^ c ->
  Z.lor (uint32 (shl32 i c)) d = i * 2 ^ c + d.
Proof.
  intros Hc Hi Hlt Hd. unfold shl32.
  destruct (Z.leb_spec 32 c); [lia|].
  assert (Hp : 0 < 2 ^ c) by (apply Z.pow_pos_nonneg; lia).
  assert (Hip : 0 <= i * 2 ^ c) by nia.
  assert (Hu : uint32 (int32 (Z.shiftl i c)) = i * 2 ^ c).
  { unfold uint32, int32. rewrite Z.shiftl_mul_pow2 by lia.
    transitivity ((i * 2 ^ c) mod 2 ^ 32);
      [Z.mod_equality|apply Z.mod_small; lia]. }
  rewrite Hu.
  assert (Hland : Z.land (i * 2 ^ c) d = 0).
  { apply Z.bits_inj'. intros n Hn. rewrite Z.land_spec, Z.bits_0.
    destruct (Z.lt_ge_cases n c).
    - by rewrite Z.mul_pow2_bits_low by lia.
    - rewrite <- (Z.mod_small d (2 ^ c)) by lia.
      rewrite Z.mod_pow2_bits_high by lia. apply andb_false_r. }
  by rewrite <- Z.lxor_lor, <- Z.add_nocarry_lxor.
Qed.

Lemma digit_range (v k c : Z) : 0 <= c -> 0 <= (v / 2 ^ k) mod 2 ^ c < 2 ^ c.
Proof. intros Hc. apply Z.mod_pos_bound. lia. Qed.

Lemma cell_injective (npoints i i' t t' : Z) :
  0 <= t < npoints -> 0 <= t' < npoints ->
  i * npoints + t = i' * npoints + t' -> i = i' /\ t = t'.
Proof.
  intros Ht Ht' Heq.
  assert (Hi : i = i').
  { destruct (Z.lt_trichotomy i i') as [Hlt|[Heq'|Hgt]]; [|done|].
    - assert (0 <= (i' - i - 1) * npoints)
        by (apply Z.mul_nonneg_nonneg; lia). lia.
    - assert (0 <= (i - i' - 1) * npoints)
        by (apply Z.mul_nonneg_nonneg; lia). lia. }
  subst i'. split; [done|lia].
Qed.

Lemma split_scalars_loop (scalars : list fr_gpu) (npoints c tid : Z)
    (s : fr_gpu) (n : nat) : forall (lo : Z) (bi pi : list Z),
  rd scalars tid = Some s -> fr_wf s -> 0 <= c <= 31 -> 0 <= lo ->
  (forall i, lo <= i < lo + Z.of_nat n -> i * c < 256) ->
  (lo + Z.of_nat n) * 2 ^ c <= 2 ^ 32 ->
  0 <= tid < npoints ->
  (lo + Z.of_nat n) * npoints <= Z.of_nat (length bi) ->
  length pi = length bi ->
  (lo + Z.of_nat n) * npoints <= 2 ^ 32 ->
  exists bi' pi',
    for_up n lo (fun i mem =>
      scalar ← rd scalars tid;
      digit ← decompose_scalar_digit scalar i c;
      bucket_indices ←
        wr (fst mem) (uint32 (i * npoints + tid))
           (Z.lor (uint32 (shl32 i c)) (uint32 digit));
      point_indices ← wr (snd mem) (uint32 (i * npoints + tid)) (uint32 tid);
      Some (bucket_indices, point_indices)) (bi, pi) = Some (bi', pi') /\
    length bi' = length bi /\ length pi' = length pi /\
    (forall i, lo <= i < lo + Z.of_nat n ->
       rd bi' (i * npoints + tid)
       = Some (i * 2 ^ c + (scalar_value s / 2 ^ (i * c)) mod 2 ^ c) /\
       rd pi' (i * npoints + tid) = Some tid) /\
    (forall j, (forall i, lo <= i < lo + Z.of_nat n -> j <> i * npoints + tid) ->
       rd bi' j = rd bi j /\ rd pi' j = rd pi j).
Proof.
  induction n as [|n IH]; intros lo bi pi Hs Hwf Hc Hlo Hwin Hkey Htid Hbi Hpi
    Hcells.
  - exists bi, pi. simpl. split; [done|]. split; [done|]. split; [done|].
    split; [intros i Hi; lia|done].
  - rewrite Nat2Z.inj_succ in *.
    assert (Hp : 0 < 2 ^ c) by (apply Z.pow_pos_nonneg; lia).
    assert (Hlnp : 0 <= lo * npoints) by (apply Z.mul_nonneg_nonneg; lia).
    assert (Hnnp : 0 <= Z.of_nat n * npoints)
      by (apply Z.mul_nonneg_nonneg; lia).
    assert (Hnpc : 0 <= Z.of_nat n * 2 ^ c)
      by (apply Z.mul_nonneg_nonneg; lia).
    assert (Hlpc : 0 <= lo * 2 ^ c) by (apply Z.mul_nonneg_nonneg; lia).
    assert (Hcell : 0 <= lo * npoints + tid
                    < (lo + Z.succ (Z.of_nat n)) * npoints) by lia.
    pose proof (digit_range (scalar_value s) (lo * c) c ltac:(lia)) as Hd.
    assert (Hp32 : 2 ^ c <= 2 ^ 31) by (apply Z.pow_le_mono_r; lia).
    match goal with
    | |- context [for_up _ lo ?f _] => set (body := f)
    end.
    assert (Hstep : body lo (bi, pi) = Some
      (<[Z.to_nat (lo * npoints + tid) :=
           lo * 2 ^ c + (scalar_value s / 2 ^ (lo * c)) mod 2 ^ c]> bi,
       <[Z.to_nat (lo * npoints + tid) := tid]> pi)).
    { unfold body. rewrite Hs, bind_Some_l.
      rewrite decompose_scalar_digit_window
        by first [done|apply Hwin; lia|lia].
      rewrite bind_Some_l.
      set (d := (scalar_value s / 2 ^ (lo * c)) mod 2 ^ c) in *.
      rewrite (uint32_small d) by lia.
      rewrite (uint32_small (lo * npoints + tid)) by lia.
      rewrite (uint32_small tid) by lia.
      rewrite packed_key by (try done; lia).
      cbn [fst snd].
      rewrite (wr_Some bi) by lia. rewrite bind_Some_l.
      rewrite (wr_Some pi) by lia. by rewrite bind_Some_l. }
    change (for_up (S n) lo body (bi, pi))
      with (body lo (bi, pi) ≫= for_up n (lo + 1) body).
    rewrite Hstep, bind_Some_l.
    set (d := (scalar_value s / 2 ^ (lo * c)) mod 2 ^ c) in *.
    destruct (IH (lo + 1)
                (<[Z.to_nat (lo * npoints + tid) := lo * 2 ^ c + d]> bi)
                (<[Z.to_nat (lo * npoints + tid) := tid]> pi))
      as (bi' & pi' & Hrun & Hlb & Hlp & Hset & Hframe);
      try done; try lia.
    { intros i Hi. apply Hwin. lia. }
    { rewrite length_insert. lia. }
    { by rewrite !length_insert. }
    exists bi', pi'. split; [exact Hrun|].
    rewrite length_insert in Hlb. rewrite length_insert in Hlp.
    split; [done|]. split; [done|]. split.
    + intros i Hi. destruct (decide (i = lo)) as [->|Hne]; [|apply Hset; lia].
      destruct (Hframe (lo * npoints + tid)) as [-> ->].
      { intros i Hi' Heq. apply cell_injective in Heq; lia. }
      split; apply rd_insert_eq; lia.
    + intros j Hj. destruct (Hframe j) as [-> ->].
      { intros i Hi. apply Hj. lia. }
      split; (apply rd_insert_ne; [lia|]); intros Heq;
        apply (Hj lo); first [lia|done].
Qed.

(** One thread: for every module [i], cell [i * npoints + tid] receives
    the packed key [i * 2^c + digit_i] and the point index [tid]. *)
Lemma split_scalars_kernel_cells (scalars : list fr_gpu)
    (npoints num_bucket_modules c tid : Z) (s : fr_gpu)
    (bucket_indices point_indices : list Z) :
  rd scalars tid = Some s -> fr_wf s -> 0 <= c <= 31 ->
  0 <= num_bucket_modules -> (num_bucket_modules - 1) * c < 256 ->
  num_bucket_modules * 2 ^ c <= 2 ^ 32 ->
  0 <= tid < npoints ->
  num_bucket_modules * npoints <= Z.of_nat (length bucket_indices) ->
  length point_indices = length bucket_indices ->
  num_bucket_modules * npoints <= 2 ^ 32 ->
  exists bi' pi',
    split_scalars_kernel scalars npoints num_bucket_modules c tid
      (bucket_indices, point_indices) = Some (bi', pi') /\
    length bi' = length bucket_indices /\
    length pi' = length point_indices /\
    (forall i, 0 <= i < num_bucket_modules ->
       rd bi' (i * npoints + tid)
       = Some (i * 2 ^ c + (scalar_value s / 2 ^ (i * c)) mod 2 ^ c) /\
       rd pi' (i * npoints + tid) = Some tid) /\
    (forall j, (forall i, 0 <= i < num_bucket_modules ->
                  j <> i * npoints + tid) ->
       rd bi' j = rd bucket_indices j /\ rd pi' j = rd point_indices j).
Proof.
  intros Hs Hwf Hc Hnm Hwin Hkey Htid Hbi Hpi Hcells.
  destruct (split_scalars_loop scalars npoints c tid s
              (Z.to_nat num_bucket_modules) 0 bucket_indices point_indices)
    as (bi' & pi' & Hrun & Hlb & Hlp & Hset & Hframe);
    try done; try (rewrite Z2Nat.id by lia; lia).
  { rewrite Z2Nat.id by lia. intros i Hi. nia. }
  exists bi', pi'. split; [exact Hrun|].
  rewrite Z2Nat.id in Hset, Hframe by lia.
  by rewrite Hlb, Hlp.
Qed.

(** X12.  One thread of [split_scalars_kernel] writes the cells
    [i * npoints + tid] of its own column and no other: every other cell
    of [bucket_indices] and [point_indices] is as it was, and the arrays
    keep their lengths. *)
Theorem split_scalars_kernel_thread (scalars : list fr_gpu)
    (npoints num_bucket_modules c tid : Z) (s : fr_gpu)
    (bucket_indices point_indices : list Z) :
  rd scalars tid = Some s -> fr_wf s -> 0 <= c <= 31 ->
  0 <= num_bucket_modules -> (num_bucket_modules - 1) * c < 256 ->
  num_bucket_modules * 2 ^ c <= 2 ^ 32 ->
  0 <= tid < npoints ->
  num_bucket_modules * npoints <= Z.of_nat (length bucket_indices) ->
  length point_indices = length bucket_indices ->
  num_bucket_modules * npoints <= 2 ^ 32 ->
  exists bi' pi',
    split_scalars_kernel scalars npoints num_bucket_modules c tid
      (bucket_indices, point_indices) = Some (bi', pi') /\
    length bi' = length bucket_indices /\
    length pi' = length point_indices /\
    forall j, j mod npoints <> tid \/ num_bucket_modules <= j / npoints ->
      rd bi' j = rd bucket_indices j /\ rd pi' j = rd point_indices j.
Proof.
  intros Hs Hwf Hc Hnm Hwin Hkey Htid Hbi Hpi Hcells.
  destruct (split_scalars_kernel_cells scalars npoints num_bucket_modules c
              tid s bucket_indices point_indices)
    as (bi' & pi' & Hrun & Hlb & Hlp & _ & Hframe); try done.
  exists bi', pi'. split; [exact Hrun|]. split; [done|]. split; [done|].
  intros j Hj. apply Hframe. intros i Hi ->.
  rewrite Z.add_comm, Z.mod_add, Z.div_add, Z.mod_small, Z.div_small in Hj
    by lia.
  lia.
Qed.

Lemma split_scalars_threads (scalars : list fr_gpu)
    (npoints num_bucket_modules c : Z) (n : nat) :
  forall (lo : Z) (bi pi : list Z),
  Forall fr_wf scalars -> 0 <= lo ->
  lo + Z.of_nat n <= npoints -> npoints <= Z.of_nat (length scalars) ->
  0 <= c <= 31 -> 0 <= num_bucket_modules ->
  (num_bucket_modules - 1) * c < 256 ->
  num_bucket_modules * 2 ^ c <= 2 ^ 32 ->
  num_bucket_modules * npoints <= 2 ^ 32 ->
  num_bucket_modules * npoints <= Z.of_nat (length bi) ->
  length pi = length bi ->
  exists bi' pi',
    launch (split_scalars_kernel scalars npoints num_bucket_modules c)
      (seqZ lo (Z.of_nat n)) (bi, pi) = Some (bi', pi') /\
    length bi' = length bi /\ length pi' = length pi /\
    (forall i t, 0 <= i < num_bucket_modules -> lo <= t < lo + Z.of_nat n ->
       exists s, rd scalars t = Some s /\
         rd bi' (i * npoints + t)
         = Some (i * 2 ^ c + (scalar_value s / 2 ^ (i * c)) mod 2 ^ c) /\
         rd pi' (i * npoints + t) = Some t) /\
    (forall j, (forall i t, 0 <= i < num_bucket_modules ->
                  lo <= t < lo + Z.of_nat n -> j <> i * npoints + t) ->
       rd bi' j = rd bi j /\ rd pi' j = rd pi j).
Proof.
  induction n as [|n IH];
    intros lo bi pi Hwf Hlo Hn Hsc Hc Hnm Hwin Hkey Hcells Hbi Hpi.
  - exists bi, pi. simpl. split; [done|]. split; [done|]. split; [done|].
    split; [intros i t Hi Ht; lia|done].
  - rewrite seqZ_cons by lia.
    replace (Z.pred (Z.of_nat (S n))) with (Z.of_nat n) by lia.
    replace (Z.succ lo) with (lo + 1) by lia.
    destruct (rd_is_Some scalars lo ltac:(lia)) as [s Hs].
    assert (Hs_wf : fr_wf s) by (eapply rd_Forall; eauto).
    destruct (split_scalars_kernel_cells scalars npoints num_bucket_modules
                c lo s bi pi)
      as (bi1 & pi1 & Hrun1 & Hlb1 & Hlp1 & Hset1 & Hframe1);
      try done; try lia.
    destruct (IH (lo + 1) bi1 pi1)
      as (bi' & pi' & Hrun & Hlb & Hlp & Hset & Hframe);
      try done; try lia.
    exists bi', pi'. simpl. rewrite Hrun1, bind_Some_l.
    split; [exact Hrun|]. split; [lia|]. split; [lia|]. split.
    + intros i t Hi Ht. destruct (decide (t = lo)) as [->|Hne];
        [|apply Hset; lia].
      exists s. split; [done|].
      destruct (Hframe (i * npoints + lo)) as [-> ->].
      { intros i' t' Hi' Ht' Heq. apply cell_injective in Heq; lia. }
      by apply Hset1.
    + intros j Hj. destruct (Hframe j) as [-> ->].
      { intros i t Hi Ht. apply Hj; lia. }
      apply Hframe1. intros i Hi. apply Hj; lia.
Qed.

(** X13.  A launch of [split_scalars_kernel] with one thread per point
    fills the first [num_bucket_modules * npoints] cells of both arrays:
    cell [i * npoints + t] holds the packed key
    [i * 2^c + digit_i(scalars[t])] and the point index [t]. *)
Theorem split_scalars_launch (scalars : list fr_gpu)
    (npoints num_bucket_modules c : Z) (bucket_indices point_indices : list Z) :
  Forall fr_wf scalars -> 0 <= npoints <= Z.of_nat (length scalars) ->
  0 <= c <= 31 -> 0 <= num_bucket_modules ->
  (num_bucket_modules - 1) * c < 256 ->
  num_bucket_modules * 2 ^ c <= 2 ^ 32 ->
  num_bucket_modules * npoints <= 2 ^ 32 ->
  num_bucket_modules * npoints <= Z.of_nat (length bucket_indices) ->
  length point_indices = length bucket_indices ->
  exists bi' pi',
    launch (split_scalars_kernel scalars npoints num_bucket_modules c)
      (seqZ 0 npoints) (bucket_indices, point_indices) = Some (bi', pi') /\
    forall i t, 0 <= i < num_bucket_modules -> 0 <= t < npoints ->
      exists s, rd scalars t = Some s /\
        rd bi' (i * npoints + t)
        = Some (i * 2 ^ c + (scalar_value s / 2 ^ (i * c)) mod 2 ^ c) /\
        rd pi' (i * npoints + t) = Some t.
Proof.
  intros Hwf Hnp Hc Hnm Hwin Hkey Hcells Hbi Hpi.
  destruct (split_scalars_threads scalars npoints num_bucket_modules c
              (Z.to_nat npoints) 0 bucket_indices point_indices)
    as (bi' & pi' & Hrun & _ & _ & Hset & _); try done; try lia.
  rewrite Z2Nat.id in Hrun, Hset by lia.
  exists bi', pi'. split; [exact Hrun|].
  intros i t Hi Ht. apply Hset; lia.
Qed.

(** ** The naive kernel on points of the curve *)

Lemma limbs_value_take_S (ls : list Z) (n : nat) (l : Z) :
  ls !! n = Some l ->
  limbs_value (take (S n) ls) = limbs_value (take n ls) + 2 ^ (64 * Z.of_nat n) * l.
Proof.
  revert n. induction ls as [|a ls IH]; intros n Hl; [done|].
  destruct n as [|n].
  - simpl in Hl. injection Hl as ->. simpl. lia.
  - simpl in Hl. change (take (S (S n)) (a :: ls)) with (a :: take (S n) ls).
    change (take (S n) (a :: ls)) with (a :: take n ls).
    cbn [limbs_value]. rewrite (IH n Hl).
    replace (64 * Z.of_nat (S n)) with (64 + 64 * Z.of_nat n) by lia.
    rewrite Z.pow_add_r by lia. lia.
Qed.

Lemma land_shr64_1 (l i : Z) :
  0 <= i <= 63 -> Z.land (shr64 l i) 1 = (l / 2 ^ i) mod 2.
Proof.
  intros Hi. unfold shr64. destruct (Z.leb_spec 64 i); [lia|].
  change 1 with (Z.ones 1). rewrite Z.land_ones, Z.shiftr_div_pow2 by lia.
  reflexivity.
Qed.

Lemma bit_step_Some {fq : Type} `{Curve fq} (k : fr_gpu) (Q : element fq)
    (j i l : Z) (R : element fq) :
  rd (data k) j = Some l ->
  bit_step k Q j i R =
  Some (let R1 := if negb (Z.land (shr64 l i) 1 =? 0) then add Q R else R in
        if negb (i =? 0) then doubling R1 else R1).
Proof. intros Hl. unfold bit_step. by rewrite Hl. Qed.

Section NaiveKernel.
Context {fq : Type} `{Curve fq} {order : Z} {valid : element fq -> Prop}
  {dlog : element fq -> Z} `{!CurveLaws order valid dlog}.

(** The raw addition is the group law unless it meets two equal operands
    that are not the identity. *)
Lemma add_safe (P Q : element fq) :
  valid P -> valid Q -> dlog P <> dlog Q \/ dlog P = 0 \/ dlog Q = 0 ->
  valid (add P Q) /\ dlog (add P Q) = (dlog P + dlog Q) mod order.
Proof.
  intros HP HQ Hc. split; [by apply add_valid|].
  destruct (decide (dlog P = dlog Q)) as [Heq|Hne].
  - apply add_dlog_identity; [done..|]. lia.
  - by destruct (add_dlog P Q HP HQ Hne).
Qed.

(** In a group of prime order, a point never meets an even multiple of
    itself below the order. *)
Lemma prime_no_clash (q A : Z) :
  Z.prime order -> 0 <= q < order -> 0 <= A -> 2 * A + 1 <= order ->
  q <> (2 * A * q) mod order \/ q = 0 \/ (2 * A * q) mod order = 0.
Proof.
  intros Hp Hq HA Hlt.
  destruct (decide (q = 0)) as [->|Hq0]; [by right; left|].
  destruct (decide (A = 0)) as [->|HA0].
  { right. right. rewrite Z.mul_0_r, Z.mul_0_l. apply Z.mod_0_l. lia. }
  left. intros Heq.
  assert (Hdiv : (order | (2 * A - 1) * q)).
  { exists (2 * A * q / order).
    pose proof (Z.div_mod (2 * A * q) order ltac:(lia)) as Hdm. lia. }
  apply Z.divide_prime_mul in Hdiv; [|done].
  destruct Hdiv as [Hd|Hd]; apply Z.divide_pos_le in Hd; lia.
Qed.

(** The inner loop over bits [n .. 0] of one limb, entered with an even
    multiple [2 A] of [Q]. *)
Lemma bit_loop_bits (k : fr_gpu) (Q : element fq) (j l : Z) (n : nat) :
  Z.prime order -> valid Q -> rd (data k) j = Some l ->
  (n <= 63)%nat ->
  forall (R : element fq) (A : Z),
  valid R -> 0 <= A -> dlog R = (2 * A * dlog Q) mod order ->
  A * 2 ^ Z.of_nat (S n) + l mod 2 ^ Z.of_nat (S n) < order ->
  exists R',
    for_down (S n) (fun i1 R => bit_step k Q j (i1 - 1) R) R = Some R' /\
    valid R' /\
    dlog R' =
    ((A * 2 ^ Z.of_nat (S n) + l mod 2 ^ Z.of_nat (S n)) * dlog Q) mod order.
Proof.
  intros Hp HQ Hl. pose proof order_pos as HN.
  pose proof (dlog_range Q HQ) as Hq.
  assert (Hstep : forall (i : nat) (R : element fq) (A : Z),
    (i <= 63)%nat -> valid R -> 0 <= A ->
    dlog R = (2 * A * dlog Q) mod order ->
    2 * A + (l / 2 ^ Z.of_nat i) mod 2 < order ->
    let R1 := if negb (Z.land (shr64 l (Z.of_nat i)) 1 =? 0)
              then add Q R else R in
    valid R1 /\
    dlog R1 = ((2 * A + (l / 2 ^ Z.of_nat i) mod 2) * dlog Q) mod order).
  { intros i R A Hi HR HA HdR Hlt. cbv zeta.
    rewrite land_shr64_1 by lia.
    pose proof (Z.mod_pos_bound (l / 2 ^ Z.of_nat i) 2 ltac:(lia)) as Hb.
    destruct (Z.eqb_spec ((l / 2 ^ Z.of_nat i) mod 2) 0) as [Hb0|Hb1]; simpl.
    - split; [done|]. rewrite Hb0, Z.add_0_r. done.
    - assert (Hbit : (l / 2 ^ Z.of_nat i) mod 2 = 1) by lia.
      rewrite Hbit in *.
      destruct (add_safe Q R HQ HR) as [Hv Hd].
      { rewrite HdR.
        destruct (prime_no_clash (dlog Q) A Hp Hq HA ltac:(lia))
          as [?|[?|?]]; auto. }
      split; [done|]. rewrite Hd, HdR.
      rewrite Z.add_mod_idemp_r by lia. f_equal. lia. }
  induction n as [|n IH]; intros Hn R A HR HA HdR Hlt.
  - rewrite for_down_S. cbv beta.
    rewrite (bit_step_Some k Q j (Z.of_nat 1 - 1) l R Hl), bind_Some_l.
    replace (Z.of_nat 1 - 1) with (Z.of_nat 0) by lia. cbv zeta.
    change (2 ^ Z.of_nat 1) with 2 in *.
    assert (Hb : l mod 2 = (l / 2 ^ Z.of_nat 0) mod 2).
    { change (2 ^ Z.of_nat 0) with 1. by rewrite Z.div_1_r. }
    destruct (Hstep 0%nat R A ltac:(lia) HR HA HdR ltac:(lia)) as [Hv Hd].
    cbv zeta in Hv, Hd. eexists. split; [reflexivity|].
    change (negb (Z.of_nat 0 =? 0)) with false. cbv iota.
    split; [exact Hv|]. rewrite Hd. f_equal. lia.
  - rewrite for_down_S. cbv beta.
    rewrite (bit_step_Some k Q j (Z.of_nat (S (S n)) - 1) l R Hl), bind_Some_l.
    replace (Z.of_nat (S (S n)) - 1) with (Z.of_nat (S n)) by lia. cbv zeta.
    assert (Hpow : 0 < 2 ^ Z.of_nat (S n)) by (apply Z.pow_pos_nonneg; lia).
    assert (Hsplit : l mod 2 ^ Z.of_nat (S (S n))
                     = l mod 2 ^ Z.of_nat (S n)
                       + 2 ^ Z.of_nat (S n) * ((l / 2 ^ Z.of_nat (S n)) mod 2)).
    { replace (Z.of_nat (S (S n))) with (Z.of_nat (S n) + 1) by lia.
      rewrite Z.pow_add_r by lia. change (2 ^ 1) with 2.
      apply Z.rem_mul_r; lia. }
    assert (Hpow2 : 2 ^ Z.of_nat (S (S n)) = 2 * 2 ^ Z.of_nat (S n)).
    { replace (Z.of_nat (S (S n))) with (Z.succ (Z.of_nat (S n))) by lia.
      apply Z.pow_succ_r. lia. }
    pose proof (Z.mod_pos_bound l (2 ^ Z.of_nat (S n)) Hpow) as Hlow.
    pose proof (Z.mod_pos_bound (l / 2 ^ Z.of_nat (S n)) 2 ltac:(lia)) as Hb.
    set (b := (l / 2 ^ Z.of_nat (S n)) mod 2) in *.
    set (p := 2 ^ Z.of_nat (S n)) in *.
    assert (Hbound : (2 * A + b) * p + l mod p < order).
    { rewrite Hsplit, Hpow2 in Hlt. lia. }
    assert (Hbp : 2 * A + b <= (2 * A + b) * p) by nia.
    destruct (Hstep (S n) R A ltac:(lia) HR HA HdR ltac:(fold p b; lia))
      as [Hv Hd].
    cbv zeta in Hv, Hd. fold p b in Hd.
    set (R1 := if negb (Z.land (shr64 l (Z.of_nat (S n))) 1 =? 0)
               then add Q R else R) in *.
    assert (Hnz : negb (Z.of_nat (S n) =? 0) = true).
    { apply negb_true_iff, Z.eqb_neq. lia. }
    rewrite Hnz.
    destruct (IH ltac:(lia) (doubling R1) (2 * A + b)) as (R' & Hrun & Hv' & Hd').
    + by apply doubling_valid.
    + lia.
    + rewrite doubling_dlog, Hd by done.
      rewrite Z.mul_mod_idemp_r by lia. f_equal. lia.
    + exact Hbound.
    + exists R'. split; [exact Hrun|]. split; [done|].
      rewrite Hd'. f_equal. rewrite Hsplit, Hpow2. lia.
Qed.

(** One limb: 65 passes, the first of which (bit 64) only doubles. *)
Lemma bit_loop_limb (k : fr_gpu) (Q : element fq) (j l : Z) :
  Z.prime order -> valid Q -> rd (data k) j = Some l -> limb_ok l ->
  forall (R : element fq) (m : Z),
  valid R -> 0 <= m -> dlog R = (m * dlog Q) mod order ->
  m * 2 ^ 64 + l < order ->
  exists R',
    for_down 65 (fun i1 R => bit_step k Q j (i1 - 1) R) R = Some R' /\
    valid R' /\ dlog R' = ((m * 2 ^ 64 + l) * dlog Q) mod order.
Proof.
  intros Hp HQ Hl Hok R m HR Hm HdR Hlt. pose proof order_pos as HN.
  rewrite for_down_S. cbv beta.
  rewrite (bit_step_Some k Q j (Z.of_nat 65 - 1) l R Hl), bind_Some_l.
  change (Z.of_nat 65 - 1) with 64. cbv zeta.
  change (shr64 l 64) with 0. change (Z.land 0 1) with 0.
  change (negb (0 =? 0)) with false. cbv iota.
  change (negb (64 =? 0)) with true. cbv iota.
  destruct (bit_loop_bits k Q j l 63 Hp HQ Hl ltac:(lia) (doubling R) m)
    as (R' & Hrun & Hv & Hd).
  - by apply doubling_valid.
  - done.
  - rewrite doubling_dlog, HdR by done.
    rewrite Z.mul_mod_idemp_r by lia. f_equal. lia.
  - change (Z.of_nat 64) with 64.
    by rewrite (Z.mod_small l (2 ^ 64)) by exact Hok.
  - exists R'. split; [exact Hrun|]. split; [done|].
    rewrite Hd. change (Z.of_nat 64) with 64.
    by rewrite (Z.mod_small l (2 ^ 64)) by exact Hok.
Qed.

(** The limbs [n - 1 .. 0], entered with the multiple [m] of [Q]. *)
Lemma bit_loop_limbs (k : fr_gpu) (Q : element fq) (n : nat) :
  Z.prime order -> valid Q -> Forall limb_ok (data k) ->
  (n <= length (data k))%nat ->
  forall (R : element fq) (m : Z),
  valid R -> 0 <= m -> dlog R = (m * dlog Q) mod order ->
  m * 2 ^ (64 * Z.of_nat n) + limbs_value (take n (data k)) < order ->
  exists R',
    for_down n (fun j1 R =>
      for_down 65 (fun i1 R => bit_step k Q (j1 - 1) (i1 - 1) R) R) R
    = Some R' /\
    valid R' /\
    dlog R' = ((m * 2 ^ (64 * Z.of_nat n) + limbs_value (take n (data k)))
               * dlog Q) mod order.
Proof.
  intros Hp HQ Hok. pose proof order_pos as HN.
  induction n as [|n IH]; intros Hn R m HR Hm HdR Hlt.
  - exists R. split; [done|]. split; [done|].
    rewrite HdR. f_equal. simpl. lia.
  - rewrite for_down_S.
    replace (Z.of_nat (S n) - 1) with (Z.of_nat n) by lia.
    destruct (lookup_lt_is_Some_2 (data k) n ltac:(lia)) as [l Hl].
    assert (Hrd : rd (data k) (Z.of_nat n) = Some l).
    { unfold rd. destruct (Z.ltb_spec (Z.of_nat n) 0); [lia|].
      by rewrite Nat2Z.id. }
    assert (Hlok : limb_ok l) by (eapply Forall_lookup_1; eauto).
    rewrite (limbs_value_take_S _ _ _ Hl) in *.
    replace (64 * Z.of_nat (S n)) with (64 + 64 * Z.of_nat n) in * by lia.
    rewrite Z.pow_add_r in * by lia.
    assert (Hpn : 0 < 2 ^ (64 * Z.of_nat n)) by (apply Z.pow_pos_nonneg; lia).
    assert (Htk : 0 <= limbs_value (take n (data k))).
    { apply limbs_value_nonneg. by apply Forall_take. }
    set (p := 2 ^ (64 * Z.of_nat n)) in *.
    assert (Hml : 0 <= m * 2 ^ 64 + l) by (unfold limb_ok in Hlok; lia).
    assert (Hle : m * 2 ^ 64 + l <= (m * 2 ^ 64 + l) * p) by nia.
    destruct (bit_loop_limb k Q (Z.of_nat n) l Hp HQ Hrd Hlok R m HR Hm HdR)
      as (R1 & Hrun1 & Hv1 & Hd1); [lia|].
    rewrite Hrun1, bind_Some_l.
    destruct (IH ltac:(lia) R1 (m * 2 ^ 64 + l) Hv1 Hml Hd1)
      as (R' & Hrun & Hv & Hd); [fold p; lia|].
    exists R'. split; [exact Hrun|]. split; [done|].
    rewrite Hd. f_equal. fold p. lia.
Qed.

(** The whole loop nest, from the identity. *)
Lemma bit_loop_dlog (k : fr_gpu) (Q : element fq) :
  Z.prime order -> fr_wf k -> scalar_value k < order -> valid Q ->
  exists R,
    bit_loop k Q zero_element = Some R /\ valid R /\
    dlog R = (scalar_value k * dlog Q) mod order.
Proof.
  intros Hp [Hlen Hok] Hlt HQ. pose proof order_pos as HN.
  unfold bit_loop.
  destruct (bit_loop_limbs k Q 4 Hp HQ Hok ltac:(lia) zero_element 0
              valid_zero ltac:(lia))
    as (R & Hrun & Hv & Hd).
  - rewrite dlog_zero. by rewrite Z.mul_0_l, Z.mod_0_l by lia.
  - rewrite take_ge by lia. fold (scalar_value k). lia.
  - exists R. split; [exact Hrun|]. split; [done|].
    rewrite Hd, take_ge by lia. fold (scalar_value k). f_equal; lia.
Qed.


(** X14.  In a group of prime order the bit loop of the naive kernel is
    scalar multiplication: for a well-formed scalar [k] below the order
    and a point [Q] of the curve it returns [k * Q], the point that [k]
    repeated additions of [Q] give. *)
Theorem bit_loop_scalar_mul (k : fr_gpu) (Q : element fq) :
  Z.prime order -> fr_wf k -> scalar_value k < order -> valid Q ->
  exists R,
    bit_loop k Q zero_element = Some R /\ valid R /\
    dlog R = (scalar_value k * dlog Q) mod order /\
    dlog R = dlog (point_mul (Z.to_nat (scalar_value k)) Q).
Proof.
  intros Hp Hwf Hlt HQ.
  destruct (bit_loop_dlog k Q Hp Hwf Hlt HQ) as (R & Hrun & Hv & Hd).
  destruct (point_mul_dlog (Z.to_nat (scalar_value k)) Q HQ) as [_ Hpm].
  assert (Hk : 0 <= scalar_value k).
  { apply limbs_value_nonneg. by destruct Hwf. }
  exists R. split; [exact Hrun|]. split; [done|]. split; [done|].
  rewrite Hd, Hpm, Z2Nat.id by lia. done.
Qed.

(** The loop of [double_and_add_kernel] over points [lo ..]. *)
Lemma double_and_add_loop (test_scalars : list fr_gpu)
    (test_points : list (element fq)) (n : nat) :
  Z.prime order -> Forall fr_wf test_scalars ->
  Forall (fun k => scalar_value k < order) test_scalars ->
  Forall valid test_points ->
  length test_points = length test_scalars ->
  forall (lo : nat) (acc : element fq),
  (lo + n)%nat = length test_scalars -> valid acc ->
  no_clash_sum order
    (zip_with (fun k P => scalar_value k * dlog P)
       (drop lo test_scalars) (drop lo test_points)) (dlog acc) ->
  exists R,
    for_up n (Z.of_nat lo) (fun z final_result =>
      k ← rd test_scalars z;
      Q ← rd test_points z;
      R ← bit_loop k Q zero_element;
      Some (add R final_result)) acc = Some R /\
    valid R /\
    dlog R =
    (foldr Z.add 0
       (zip_with (fun k P => scalar_value k * dlog P)
          (drop lo test_scalars) (drop lo test_points)) + dlog acc) mod order.
Proof.
  intros Hp Hwf Hlt Hval Hlen. pose proof order_pos as HN.
  induction n as [|n IH]; intros lo acc Hlo Hacc Hclash.
  - exists acc. split; [done|]. split; [done|].
    rewrite (drop_ge test_scalars), (drop_ge test_points) by lia.
    cbn [zip_with foldr]. rewrite Z.add_0_l. symmetry. by apply dlog_mod.
  - destruct (lookup_lt_is_Some_2 test_scalars lo ltac:(lia)) as [k Hk].
    destruct (lookup_lt_is_Some_2 test_points lo ltac:(lia)) as [Q HQ].
    rewrite (drop_S _ _ _ Hk), (drop_S _ _ _ HQ) in *.
    cbn [zip_with foldr] in *. destruct Hclash as [Hhead Htail].
    assert (Hrk : rd test_scalars (Z.of_nat lo) = Some k).
    { unfold rd. destruct (Z.ltb_spec (Z.of_nat lo) 0); [lia|].
      by rewrite Nat2Z.id. }
    assert (Hrq : rd test_points (Z.of_nat lo) = Some Q).
    { unfold rd. destruct (Z.ltb_spec (Z.of_nat lo) 0); [lia|].
      by rewrite Nat2Z.id. }
    assert (Hkwf : fr_wf k) by (eapply Forall_lookup_1; eauto).
    assert (Hklt : scalar_value k < order)
      by (eapply (Forall_lookup_1 (fun k => scalar_value k < order)); eauto).
    assert (HQv : valid Q) by (eapply Forall_lookup_1; eauto).
    destruct (bit_loop_dlog k Q Hp Hkwf Hklt HQv) as (R & Hrun & Hv & Hd).
    destruct (add_safe R acc Hv Hacc) as [Hva Hda].
    { by rewrite Hd. }
    destruct (IH (S lo) (add R acc) ltac:(lia) Hva) as (R' & Hrun' & Hv' & Hd').
    { rewrite Hda, Hd. by rewrite Z.add_mod_idemp_l by lia. }
    exists R'. simpl. rewrite Hrk, bind_Some_l, Hrq, bind_Some_l.
    rewrite Hrun, bind_Some_l.
    replace (Z.of_nat lo + 1) with (Z.of_nat (S lo)) by lia.
    split; [exact Hrun'|]. split; [done|].
    rewrite Hd', Hda, Hd. Z.mod_equality.
Qed.

(** X15.  On points of a curve of prime order, with well-formed scalars
    below the order, [double_and_add_kernel] returns
    [Sum_i scalars[i] * points[i]], as long as no partial sum meets the
    multiple it is added to. *)
Theorem double_and_add_kernel_sum (test_scalars : list fr_gpu)
    (test_points : list (element fq)) (num_points : Z) :
  Z.prime order -> Forall fr_wf test_scalars ->
  Forall (fun k => scalar_value k < order) test_scalars ->
  Forall valid test_points ->
  Z.of_nat (length test_scalars) = num_points ->
  length test_points = length test_scalars ->
  no_clash_sum order
    (zip_with (fun k P => scalar_value k * dlog P) test_scalars test_points)
    0 ->
  exists R,
    double_and_add_kernel test_scalars test_points num_points = Some R /\
    valid R /\
    dlog R =
    foldr Z.add 0
      (zip_with (fun k P => scalar_value k * dlog P) test_scalars test_points)
    mod order.
Proof.
  intros Hp Hwf Hlt Hval Hn Hlen Hclash. unfold double_and_add_kernel.
  destruct (double_and_add_loop test_scalars test_points
              (Z.to_nat num_points) Hp Hwf Hlt Hval Hlen 0%nat zero_element)
    as (R & Hrun & Hv & Hd).
  - lia.
  - apply valid_zero.
  - by rewrite dlog_zero.
  - exists R. split; [exact Hrun|]. split; [done|].
    rewrite Hd, dlog_zero, Z.add_0_r. done.
Qed.

End NaiveKernel.

(** ** The windowed running sum on points of the curve *)

Lemma psum_S_r (f : Z -> Z) (n : nat) : forall lo,
  psum f lo (S n) = psum f lo n + f (lo + Z.of_nat n).
Proof.
  induction n as [|n IH]; intros lo.
  - simpl. rewrite !Z.add_0_r. lia.
  - change (psum f lo (S (S n))) with (f lo + psum f (lo + 1) (S n)).
    rewrite IH. simpl psum.
    replace (lo + 1 + Z.of_nat n) with (lo + Z.of_nat (S n)) by lia. lia.
Qed.

Section WindowedRunningSum.
Context {fq : Type} `{Curve fq} {order : Z} {valid : element fq -> Prop}
  {dlog : element fq -> Z} `{!CurveLaws order valid dlog}.

(** The loop of [bucket_running_sum_kernel_2] over buckets
    [n - 1 .. 0] of a segment, from the sums [G] and [S]. *)
Lemma segment_loop_dlog (buckets : list (element fq)) (idx : Z -> Z)
    (B : Z -> element fq) (n : nat) :
  (forall u, 0 <= u < Z.of_nat n ->
     rd buckets (idx u) = Some (B u) /\ valid (B u)) ->
  forall G S, valid G -> valid S ->
  no_clash order (fun d => dlog (B (d - 1))) n (dlog S) ->
  exists G' S',
    for_down n (fun u1 gs =>
      let u := u1 - 1 in
      let S := snd gs in
      let G := add S (fst gs) in
      let G := if is_zero_element G then doubling S else G in
      b ← rd buckets (idx u);
      Some (G, add S b)) (G, S) = Some (G', S') /\
    valid G' /\ valid S' /\
    dlog S' = (dlog S + psum (fun u => dlog (B u)) 0 n) mod order /\
    dlog G' = (dlog G + Z.of_nat n * dlog S
               + wsum (fun u => dlog (B u)) 0 n) mod order.
Proof.
  pose proof order_pos as HN.
  induction n as [|n IH]; intros HB G S HG HS Hclash.
  - exists G, S. split; [done|]. split; [done|]. split; [done|].
    simpl. rewrite !Z.add_0_r. by rewrite !dlog_mod.
  - rewrite for_down_S. cbv beta zeta. cbn [fst snd].
    replace (Z.of_nat (Datatypes.S n) - 1) with (Z.of_nat n) by lia.
    destruct (HB (Z.of_nat n) ltac:(lia)) as [Hrd Hb].
    rewrite Hrd, bind_Some_l.
    destruct Hclash as [Hhead Htail]. cbv beta in Hhead, Htail.
    replace (Z.of_nat (Datatypes.S n) - 1) with (Z.of_nat n) in * by lia.
    destruct (substituted_add S G S HS HG ltac:(by left)) as [HvG HdG].
    destruct (add_safe S (B (Z.of_nat n)) HS Hb) as [HvS HdS].
    { destruct Hhead as [?|[?|?]]; auto. }
    destruct (IH ltac:(intros u Hu; apply HB; lia) _ _ HvG HvS)
      as (G' & S' & Hrun & HvG' & HvS' & HdS' & HdG').
    { rewrite HdS. by rewrite (Z.add_comm (dlog S)). }
    exists G', S'. split; [exact Hrun|]. split; [done|]. split; [done|].
    rewrite HdS', HdG', HdS, HdG, psum_S_r, wsum_S_r, Nat2Z.inj_succ.
    rewrite !(Z.add_0_l (Z.of_nat n)).
    split; Z.mod_equality.
Qed.

(** X16.  On points of the curve a tile of [bucket_running_sum_kernel_2]
    leaves in its slot of [S_] the sum [Sum_{u < U} B_u] of the [U]
    buckets it reads and in its slot of [G_] their weighted sum
    [Sum_{u < U} u * B_u], as long as no bucket meets the running sum it
    is added to. *)
Theorem bucket_running_sum_kernel_2_sums (buckets : list (element fq))
    (M U : Z) (t : tile) (S_ G_ : list (element fq))
    (B : Z -> element fq) :
  1 <= M <= 31 -> 0 <= U ->
  slot t * 2 ^ (M - 1) + U <= 2 ^ 32 ->
  0 <= blockIdx_x t < Z.of_nat (length S_) -> length G_ = length S_ ->
  (forall u, 0 <= u < U ->
     rd buckets (slot t * 2 ^ (M - 1) + u) = Some (B u) /\ valid (B u)) ->
  no_clash order (fun d => dlog (B (d - 1))) (Z.to_nat U) 0 ->
  exists S G,
    bucket_running_sum_kernel_2 buckets M U t (S_, G_)
    = Some (<[Z.to_nat (blockIdx_x t) := S]> S_,
            <[Z.to_nat (blockIdx_x t) := G]> G_) /\
    valid S /\ valid G /\
    dlog S = psum (fun u => dlog (B u)) 0 (Z.to_nat U) mod order /\
    dlog G = wsum (fun u => dlog (B u)) 0 (Z.to_nat U) mod order.
Proof.
  intros HM HU Hidx Hbx Hlen HB Hclash. pose proof order_pos as HN.
  unfold bucket_running_sum_kernel_2.
  rewrite (uint32_small (M - 1)) by lia. rewrite shl32_1 by lia.
  assert (Hs : 0 <= slot t) by (apply Z.mod_pos_bound; lia).
  assert (Hp : 0 < 2 ^ (M - 1)) by (apply Z.pow_pos_nonneg; lia).
  assert (Hsp : 0 <= slot t * 2 ^ (M - 1)) by (apply Z.mul_nonneg_nonneg; lia).
  destruct (segment_loop_dlog buckets
              (fun u => uint32 (slot t * 2 ^ (M - 1) + u)) B (Z.to_nat U))
    with (G := zero_element) (S := zero_element)
    as (G & S & Hrun & HvG & HvS & HdS & HdG).
  - intros u Hu. rewrite uint32_small by lia. apply HB. lia.
  - apply valid_zero.
  - apply valid_zero.
  - by rewrite dlog_zero.
  - exists S, G. cbv zeta in Hrun. rewrite Hrun, bind_Some_l. cbn [fst snd].
    rewrite (wr_Some S_) by lia. rewrite bind_Some_l.
    rewrite (wr_Some G_) by lia. rewrite bind_Some_l.
    split; [done|]. split; [done|]. split; [done|].
    rewrite HdS, HdG, dlog_zero. split; f_equal; lia.
Qed.

(** The first loop of [bucket_running_sum_kernel_3] over segment sums
    [lo .. e - 1], from the sums [S] and [S_k]. *)
Lemma segment_sums_loop_dlog (S_ : list (element fq)) (idx : Z -> Z)
    (Sg : Z -> element fq) (e : Z) (n : nat) : forall (lo : Z) S S_k,
  e = lo + Z.of_nat n ->
  (forall m, lo <= m < e -> rd S_ (idx m) = Some (Sg m) /\ valid (Sg m)) ->
  valid S -> valid S_k ->
  no_clash_sum order ((fun m => dlog (Sg m)) <$> seqZ lo (Z.of_nat n))
    (dlog S) ->
  exists S' S_k',
    for_up n lo (fun m ss =>
      s ← rd S_ (idx m);
      let S := add s (fst ss) in
      let S_k := add (snd ss) S in
      Some (S, if is_zero_element S_k then doubling S else S_k))
      (S, S_k) = Some (S', S_k') /\
    valid S' /\ valid S_k' /\
    dlog S_k' = (dlog S_k + Z.of_nat n * dlog S
                 + psum (fun m => (e - m) * dlog (Sg m)) lo n) mod order.
Proof.
  pose proof order_pos as HN.
  induction n as [|n IH]; intros lo S S_k He HS HvS HvK Hclash.
  - exists S, S_k. split; [done|]. split; [done|]. split; [done|].
    simpl. rewrite !Z.add_0_r. by rewrite !dlog_mod.
  - simpl for_up.
    destruct (HS lo ltac:(lia)) as [Hrd Hs]. rewrite Hrd, bind_Some_l.
    cbv zeta. cbn [fst snd].
    rewrite seqZ_cons in Hclash by lia.
    replace (Z.pred (Z.of_nat (Datatypes.S n))) with (Z.of_nat n) in Hclash
      by lia.
    replace (Z.succ lo) with (lo + 1) in Hclash by lia.
    rewrite fmap_cons in Hclash. destruct Hclash as [Hhead Htail].
    rewrite (dlog_mod (Sg lo)) in Hhead by done.
    destruct (add_safe (Sg lo) S Hs HvS) as [HvS1 HdS1]; [done|].
    destruct (substituted_add S_k (add (Sg lo) S) (add (Sg lo) S) HvK HvS1
                ltac:(by right)) as [HvK1 HdK1].
    destruct (IH (lo + 1) _ _ ltac:(lia)
                ltac:(intros m Hm; apply HS; lia) HvS1 HvK1)
      as (S' & S_k' & Hrun & HvS' & HvK' & HdK').
    { by rewrite HdS1. }
    exists S', S_k'. split; [exact Hrun|]. split; [done|]. split; [done|].
    rewrite HdK', HdK1, HdS1. cbn [psum]. rewrite Nat2Z.inj_succ.
    replace (e - lo) with (Z.of_nat n + 1) by lia.
    Z.mod_equality.
Qed.

Lemma for_up_doubling (n : nat) (lo : Z) (P : element fq) :
  for_up n lo (fun _ S_k => Some (doubling S_k)) P
  = Some (Nat.iter n doubling P).
Proof.
  revert lo P. induction n as [|n IH]; intros lo P; [done|].
  simpl for_up. rewrite IH. by rewrite Nat.iter_succ_r.
Qed.

(** X17.  On points of the curve a tile of [bucket_running_sum_kernel_3]
    writes [2^(log2 U) * Sum_{m < M - 1} (M - 1 - m) * S_[m]] to its slot
    of [result], as long as no segment sum meets the running sum it is
    added to: the sums of [G_] are read and folded but never stored. *)
Theorem bucket_running_sum_kernel_3_value (S_ G_ : list (element fq))
    (M U : Z) (t : tile) (result : list (element fq))
    (Sg : Z -> element fq) :
  1 <= M -> 0 < U -> slot t * (M - 1) + M <= 2 ^ 32 ->
  slot t * (M - 1) + M <= Z.of_nat (length G_) ->
  0 <= blockIdx_x t < Z.of_nat (length result) ->
  (forall m, 0 <= m < M - 1 ->
     rd S_ (slot t * (M - 1) + m) = Some (Sg m) /\ valid (Sg m)) ->
  no_clash_sum order ((fun m => dlog (Sg m)) <$> seqZ 0 (M - 1)) 0 ->
  exists S_k,
    bucket_running_sum_kernel_3 S_ G_ M U t result
    = Some (<[Z.to_nat (blockIdx_x t) := S_k]> result) /\
    valid S_k /\
    dlog S_k
    = (2 ^ Z.log2 U
       * psum (fun m => (M - 1 - m) * dlog (Sg m)) 0 (Z.to_nat (M - 1)))
      mod order.
Proof.
  intros HM HU Hidx HG Hbx HS Hclash. pose proof order_pos as HN.
  unfold bucket_running_sum_kernel_3.
  assert (Hs : 0 <= slot t) by (apply Z.mod_pos_bound; lia).
  assert (Hsm : 0 <= slot t * (M - 1)) by (apply Z.mul_nonneg_nonneg; lia).
  rewrite (uint32_small (M - 1)) by lia.
  destruct (segment_sums_loop_dlog S_
              (fun m => uint32 (slot t * (M - 1) + m)) Sg (M - 1)
              (Z.to_nat (M - 1)) 0 zero_element zero_element)
    as (S' & S_k & Hrun & _ & HvK & HdK).
  - lia.
  - intros m Hm. rewrite uint32_small by lia. apply HS. lia.
  - apply valid_zero.
  - apply valid_zero.
  - rewrite Z2Nat.id, dlog_zero by lia. done.
  - cbv zeta in Hrun. rewrite Hrun, bind_Some_l. cbn [snd].
    case_guard; [|lia]. rewrite bind_Some_l.
    rewrite for_up_doubling, bind_Some_l.
    destruct (iter_doubling_dlog (Z.to_nat (Z.log2 U)) S_k HvK) as [Hv Hd].
    assert (Hloop : forall n lo acc,
      lo + Z.of_nat n <= M -> 0 <= lo ->
      is_Some (for_up n lo (fun m G_k =>
                 g ← rd G_ (uint32 (slot t * (M - 1) + m));
                 Some (add G_k g)) acc)).
    { induction n as [|n IHn]; intros lo acc Hn Hlo; [by eexists|].
      simpl for_up. rewrite uint32_small by lia.
      destruct (rd_is_Some G_ (slot t * (M - 1) + lo) ltac:(lia)) as [g ->].
      rewrite bind_Some_l. apply IHn; lia. }
    destruct (Hloop (Z.to_nat M) 0 zero_element ltac:(lia) ltac:(lia))
      as [G_k ->].
    rewrite bind_Some_l. rewrite (wr_Some result) by lia.
    eexists. split; [reflexivity|]. split; [done|].
    rewrite Hd, HdK, dlog_zero, Z2Nat.id by (apply Z.log2_nonneg).
    rewrite Z.mul_mod_idemp_r by lia. f_equal. lia.
Qed.

End WindowedRunningSum.

(** ** Values of the reducing kernels on points of the curve *)

Section Values.
Context {fq : Type} `{Curve fq} {order : Z} {valid : element fq -> Prop}
  {dlog : element fq -> Z} `{!CurveLaws order valid dlog}.

(** X18.  On points of the curve [final_accumulation_kernel] returns
    [Sum_{i < 26} 2^(10 i) * final_sum[i]], whatever [num_bucket_modules]
    and [c] it is given and whatever [final_sum] holds from slot 26 on. *)
Theorem final_accumulation_kernel_value (final_sum : list (element fq))
    (num_bucket_modules c : Z) :
  Forall valid (take 26 final_sum) -> (26 <= length final_sum)%nat ->
  exists r,
    final_accumulation_kernel final_sum num_bucket_modules c = Some r /\
    valid r /\
    dlog r = recombine 10 (dlog <$> take 26 final_sum) mod order.
Proof.
  intros Hv Hlen.
  destruct (final_accumulation_dlog (take 26 final_sum) num_bucket_modules c
              Hv) as (r & Hr & Hvr & Hd).
  { rewrite length_take. lia. }
  exists r. rewrite <- final_accumulation_take, Hr.
  split; [done|]. split; [done|]. by rewrite Hd, take_take.
Qed.

(** The tiles [lo .. lo + n - 1] of the reduce stage. *)
Lemma running_sum_tiles (buckets : list (element fq)) (c nm : Z)
    (B : Z -> Z -> element fq) (n : nat) :
  1 <= c <= 30 ->
  nm * 2 ^ c <= Z.of_nat (length buckets) < 2 ^ 32 ->
  (forall w d, 0 <= w < nm -> 1 <= d < 2 ^ c ->
     rd buckets (w * 2 ^ c + d) = Some (B w d) /\ valid (B w d)) ->
  (forall w, 0 <= w < nm ->
     no_clash order (fun d => dlog (B w d)) (Z.to_nat (2 ^ c - 2))
              (dlog (B w (2 ^ c - 1)))) ->
  forall (lo : Z) (final_sum : list (element fq)),
  0 <= lo -> lo + Z.of_nat n <= nm -> nm <= Z.of_nat (length final_sum) ->
  exists fs',
    launch (bucket_running_sum_kernel buckets c)
      ((fun i => mk_tile (4 * i) i 0 1) <$> seqZ lo (Z.of_nat n)) final_sum
    = Some fs' /\
    length fs' = length final_sum /\
    (forall w, lo <= w < lo + Z.of_nat n ->
       exists total, rd fs' w = Some total /\ valid total /\
         dlog total
         = wsum (fun d => dlog (B w d)) 1 (Z.to_nat (2 ^ c - 1)) mod order) /\
    (forall w, ~ lo <= w < lo + Z.of_nat n -> rd fs' w = rd final_sum w).
Proof.
  intros Hc Hnb HB Hclash.
  assert (Hp : 0 < 2 ^ c) by (apply Z.pow_pos_nonneg; lia).
  induction n as [|n IH]; intros lo final_sum Hlo Hn Hlen.
  - exists final_sum. split; [done|]. split; [done|].
    split; [intros w Hw; lia|done].
  - rewrite seqZ_cons by lia.
    replace (Z.pred (Z.of_nat (S n))) with (Z.of_nat n) by lia.
    replace (Z.succ lo) with (lo + 1) by lia.
    rewrite fmap_cons. cbn [launch].
    set (t := mk_tile (4 * lo) lo 0 1).
    assert (Hnm32 : nm * 2 ^ c < 2 ^ 32) by lia.
    assert (Hnm : nm < 2 ^ 32) by nia.
    assert (Hslot : slot t = lo).
    { unfold slot, t. cbn [subgroup subgroup_size blockIdx_x].
      rewrite uint32_small; lia. }
    destruct (bucket_running_sum_dlog buckets c t final_sum (B lo))
      as (total & Hk & Hv & Hd); rewrite ?Hslot; try done; try lia.
    { split; [|lia]. transitivity (nm * 2 ^ c); [|lia].
      apply Z.mul_le_mono_nonneg_r; lia. }
    { intros d Hd. apply HB; lia. }
    { apply Hclash. lia. }
    rewrite Hslot in Hk. rewrite Hk, bind_Some_l.
    destruct (IH (lo + 1) (<[Z.to_nat lo := total]> final_sum))
      as (fs' & Hrun & Hl & Hset & Hframe); try lia.
    { rewrite length_insert. lia. }
    exists fs'. split; [exact Hrun|]. rewrite length_insert in Hl.
    split; [done|]. split.
    + intros w Hw. destruct (decide (w = lo)) as [->|Hne];
        [|apply Hset; lia].
      exists total. rewrite Hframe by lia. split; [|done].
      apply rd_insert_eq. lia.
    + intros w Hw. rewrite Hframe by lia. apply rd_insert_ne; lia.
Qed.

(** X19.  On points of the curve the reduce stage, one tile of
    [bucket_running_sum_kernel] per module, fills slot [w] of [final_sum]
    with the weighted sum [Sum_{d = 1}^{2^c - 1} d * B_{w,d}] of the
    buckets of module [w], as long as in no module a bucket meets the
    running accumulator it is added to. *)
Theorem running_sum_stage_value (buckets : list (element fq))
    (c num_bucket_modules : Z) (B : Z -> Z -> element fq)
    (final_sum : list (element fq)) :
  1 <= c <= 30 -> 0 <= num_bucket_modules ->
  num_bucket_modules <= Z.of_nat (length final_sum) ->
  num_bucket_modules * 2 ^ c <= Z.of_nat (length buckets) < 2 ^ 32 ->
  (forall w d, 0 <= w < num_bucket_modules -> 1 <= d < 2 ^ c ->
     rd buckets (w * 2 ^ c + d) = Some (B w d) /\ valid (B w d)) ->
  (forall w, 0 <= w < num_bucket_modules ->
     no_clash order (fun d => dlog (B w d)) (Z.to_nat (2 ^ c - 2))
              (dlog (B w (2 ^ c - 1)))) ->
  exists fs',
    launch (bucket_running_sum_kernel buckets c) (grid num_bucket_modules)
      final_sum = Some fs' /\
    length fs' = length final_sum /\
    forall w, 0 <= w < num_bucket_modules ->
      exists total, rd fs' w = Some total /\ valid total /\
        dlog total
        = wsum (fun d => dlog (B w d)) 1 (Z.to_nat (2 ^ c - 1)) mod order.
Proof.
  intros Hc Hnm Hlen Hnb HB Hclash. unfold grid.
  destruct (running_sum_tiles buckets c num_bucket_modules B
              (Z.to_nat num_bucket_modules) Hc Hnb HB Hclash 0 final_sum)
    as (fs' & Hrun & Hl & Hset & _); try lia.
  rewrite Z2Nat.id in Hrun, Hset by lia.
  exists fs'. split; [exact Hrun|]. split; [done|].
  intros w Hw. apply Hset. lia.
Qed.

End Values.

(** ** Helper kernels *)

Section Helpers.
Context {fq : Type} `{Curve fq}.

(** X21.  [comparator_kernel] on two points converted by
    [affine_to_jacobian] decides whether the affine points are equal. *)
Theorem comparator_affine (inF : fq -> Prop) (a b : fq * fq) :
  (forall u, inF u -> fq_mul u fq_one = u) ->
  fq_square fq_one = fq_one -> inF fq_one ->
  (forall u v, fq_eqb u v = true <-> u = v) ->
  inF (fst a) -> inF (snd a) -> inF (fst b) -> inF (snd b) ->
  comparator_kernel (affine_to_jacobian a) (affine_to_jacobian b) = true
  <-> a = b.
Proof.
  intros Hone Hsq H1 Heq Hxa Hya Hxb Hyb.
  unfold comparator_kernel, affine_to_jacobian. cbn [x y z].
  rewrite Hsq, !Hone by done.
  rewrite andb_true_iff, !Heq.
  destruct a as [xa ya], b as [xb yb]; simpl. split.
  - by intros [-> ->].
  - by intros [= -> ->].
Qed.

(** X22.  A launch of [initialize_buckets_kernel] over two or more tiles
    does not run to its end: the kernel indexes the limbs of a field
    element by the global thread id, which only the tile of threads
    0 .. 3 keeps within the four limbs. *)
Theorem initialize_buckets_launch (n : Z) (bucket : list (element fq)) :
  2 <= n -> launch initialize_buckets_kernel (grid n) bucket = None.
Proof.
  intros Hn. unfold grid.
  rewrite seqZ_cons by lia. rewrite (seqZ_cons (Z.succ 0)) by lia.
  rewrite !fmap_cons. cbn [launch].
  destruct (initialize_buckets_kernel _ bucket) as [b1|]; [|done].
  rewrite bind_Some_l.
  rewrite initialize_buckets_later_tile; [done|]. simpl. lia.
Qed.

End Helpers.


(** ** The kernels on the small curve *)

Import Fp7.

(** Closed goals about the kernels on [Fp7] are settled by running them. *)
Ltac run_kernels :=
  cbv zeta; repeat match goal with |- _ /\ _ => split end;
  vm_compute; reflexivity.

(** *** The small curve meets the contract of the collaborators *)

Ltac split_andb :=
  repeat match goal with
    | H : _ && _ = true |- _ => apply andb_prop in H; destruct H
    end.

Lemma valid_curve_point (P : element Z) :
  valid P = true -> In P curve_points.
Proof.
  destruct P as [a b c]. unfold valid, in_field, p. cbn [x y z]. intros Hv.
  split_andb.
  unfold curve_points. apply filter_In. split; [|done].
  apply list_elem_of_In. unfold all_triples.
  apply list_elem_of_bind. exists a. split; [|apply elem_of_seqZ; lia].
  apply list_elem_of_bind. exists b. split; [|apply elem_of_seqZ; lia].
  apply list_elem_of_bind. exists c. split; [|apply elem_of_seqZ; lia].
  apply list_elem_of_singleton. reflexivity.
Qed.

Lemma laws_hold_1_all : forallb laws_hold_1 curve_points = true.
Proof. vm_compute. reflexivity. Qed.

Lemma laws_hold_2_all :
  forallb (fun P => forallb (laws_hold_2 P) curve_points) curve_points = true.
Proof. vm_compute. reflexivity. Qed.

Lemma laws_hold_1_valid (P : element Z) :
  valid P = true -> laws_hold_1 P = true.
Proof.
  intros HP. apply valid_curve_point in HP.
  exact (proj1 (forallb_forall _ _) laws_hold_1_all P HP).
Qed.

Lemma laws_hold_2_valid (P Q : element Z) :
  valid P = true -> valid Q = true -> laws_hold_2 P Q = true.
Proof.
  intros HP HQ. apply valid_curve_point in HP, HQ.
  pose proof (proj1 (forallb_forall _ _) laws_hold_2_all P HP) as H2.
  exact (proj1 (forallb_forall _ _) H2 Q HQ).
Qed.

#[export] Instance Fp7_laws :
  CurveLaws 13 (fun P => valid P = true) dlog.
Proof.
  split.
  - lia.
  - intros P HP. apply laws_hold_1_valid in HP. unfold laws_hold_1 in HP.
    split_andb. lia.
  - reflexivity.
  - reflexivity.
  - intros P HP Hz. apply laws_hold_1_valid in HP. unfold laws_hold_1 in HP.
    split_andb. rewrite Hz in *. simpl in *. lia.
  - intros P HP. apply laws_hold_1_valid in HP. unfold laws_hold_1 in HP.
    split_andb. done.
  - intros P HP. apply laws_hold_1_valid in HP. unfold laws_hold_1 in HP.
    split_andb. simpl. lia.
  - intros P Q HP HQ. pose proof (laws_hold_2_valid P Q HP HQ) as H2.
    unfold laws_hold_2 in H2. split_andb. done.
  - intros P Q HP HQ Hne. pose proof (laws_hold_2_valid P Q HP HQ) as H2.
    unfold laws_hold_2 in H2. split_andb.
    destruct (Z.eqb_spec (dlog P) (dlog Q)); [done|].
    split_andb. split; [simpl; lia|].
    simpl. by apply negb_true_iff.
  - intros P Q HP HQ Heq. pose proof (laws_hold_2_valid P Q HP HQ) as H2.
    unfold laws_hold_2 in H2. split_andb.
    destruct (Z.eqb_spec (dlog P) (dlog Q)); [|done].
    match goal with
    | Hor : _ || _ = true |- _ => apply orb_prop in Hor; destruct Hor
    end; [by left|right; simpl; lia].
Qed.

(** The final accumulation on the small curve, by the contract: 26 module
    sums with [G1] in slot 1 give [2^10 * G1], which is [10 * G1]. *)
Example final_accumulation_Fp7 :
  exists r,
    final_accumulation_kernel
      (zero_element :: G1 :: replicate 24 zero_element) 26 4 = Some r /\
    dlog r = 10.
Proof.
  destruct (final_accumulation_dlog
              (zero_element :: G1 :: replicate 24 zero_element) 26 4)
    as (r & Hr & _ & Hd).
  - repeat constructor.
  - simpl. lia.
  - exists r. split; [done|]. rewrite Hd. reflexivity.
Qed.

(** The generator lies on the curve and has order 13. *)
Example G1_on_curve : on_curve G1 = true.
Proof. reflexivity. Qed.

Example G1_order_13 :
  z (point_mul 13 G1) = 0 /\
  Forall (fun n => negb (z (point_mul n G1) =? 0) = true) (seq 1 12).
Proof. split; [reflexivity|]. repeat constructor. Qed.

(** The naive kernel computes scalar multiples: [5 * G1], up to [z]. *)
Example double_and_add_5 :
  exists R, double_and_add_kernel [fr_of_Z 5] [G1] 1 = Some R /\
            comparator_kernel R (point_mul 5 G1) = true.
Proof. eexists. run_kernels. Qed.

(** The plain running sum on bucket sums that never meet the running
    accumulator, [1 * G + 2 * 3G + 3 * 7G]: by running the kernel, and by
    the refinement under the contract. *)
Example bucket_running_sum_generic :
  let buckets := [zero_element; G1; point_mul 3 G1; point_mul 7 G1] in
  exists T W,
    plain_running_sum buckets 2 = Some [T] /\
    weighted_sum_spec buckets 2 0 = Some W /\
    comparator_kernel T W = true.
Proof. do 2 eexists. run_kernels. Qed.

Example bucket_running_sum_refines_Fp7 :
  let buckets := [zero_element; G1; point_mul 3 G1; point_mul 7 G1] in
  exists total W,
    bucket_running_sum_kernel buckets 2 (mk_tile 0 0 0 1) [zero_element]
    = Some [total] /\
    weighted_sum_spec buckets 2 0 = Some W /\
    dlog total = dlog W.
Proof.
  intros buckets.
  apply (bucket_running_sum_refines buckets 2 (mk_tile 0 0 0 1)
           [zero_element]
           (fun d => default zero_element (rd buckets d))).
  - lia.
  - vm_compute. split; congruence.
  - vm_compute. split; congruence.
  - intros d Hd. change (slot (mk_tile 0 0 0 1) * 2 ^ 2) with 0.
    change (2 ^ 2) with 4 in Hd.
    assert (Hcase : d = 1 \/ d = 2 \/ d = 3) by lia.
    destruct Hcase as [Hd1 | [Hd1 | Hd1]]; subst d; split; reflexivity.
  - vm_compute. repeat split; try (left; discriminate).
Qed.

(** C1.  One point [G1] with scalar 1, window width 10 and 26 modules,
    every bucket holding the identity when accumulation starts: the naive
    kernel returns [G1]; the bucket method returns the all-zero triple
    after the counting sort, and can return nothing else after any sort
    stage, because the accumulation stage stores no bucket sum. *)
Theorem bucket_method_differs_from_naive :
  let buckets := replicate (Z.to_nat (26 * 2 ^ 10)) zero_element in
  double_and_add_kernel [fr_of_Z 1] [G1] 1 = Some G1 /\
  is_zero_element G1 = false /\
  (forall zero_element',
     bucket_method counting_sort 10 26 zero_element' buckets [G1]
       [fr_of_Z 1] 1 = Some zero_element) /\
  (forall sorter zero_element' r,
     bucket_method sorter 10 26 zero_element' buckets [G1] [fr_of_Z 1] 1
     = Some r -> r = zero_element).
Proof.
  cbv zeta. split; [vm_compute; reflexivity|]. split; [reflexivity|].
  split.
  - intros zero_element'.
    apply bucket_method_identity;
      [reflexivity|reflexivity|lia|lia|vm_compute; reflexivity|lia|].
    eexists. vm_compute. reflexivity.
  - intros sorter zero_element' r.
    apply bucket_method_identity_only;
      [reflexivity|reflexivity|lia|lia|vm_compute; reflexivity|lia].
Qed.

(** C2.  The same input under two window widths: with [c = 16] and its
    16 modules the final accumulation steps outside the module sums and
    no result is defined, whatever the sort stage; with [c = 4] and its
    64 modules the bucket method returns the all-zero triple. *)
Theorem bucket_method_window_16 :
  (forall sorter zero_element',
     bucket_method sorter 16 16 zero_element'
       (replicate (Z.to_nat (16 * 2 ^ 16)) zero_element) [G1] [fr_of_Z 1] 1
     = None) /\
  (forall zero_element',
     bucket_method counting_sort 4 64 zero_element'
       (replicate (Z.to_nat (64 * 2 ^ 4)) zero_element) [G1] [fr_of_Z 1] 1
     = Some zero_element).
Proof.
  split.
  - intros sorter zero_element'. apply bucket_method_short. lia.
  - intros zero_element'.
    apply bucket_method_identity;
      [reflexivity|reflexivity|lia|lia|vm_compute; reflexivity|lia|].
    eexists. vm_compute. reflexivity.
Qed.

(** C3.  Twenty-six contributions of which only module 1 holds [G1],
    window width 4: the kernel returns [2^10 * G1], the accumulation of
    the specification returns [2^4 * G1], and the two are different
    points.  Two contributions only: the kernel still walks slots 25 .. 0
    and finds nothing there. *)
Theorem final_accumulation_fixed_window :
  let final_sum := zero_element :: G1 :: replicate 24 zero_element in
  final_accumulation_kernel final_sum 26 4 = Some (mk_element 1 2 5) /\
  final_accumulation_spec final_sum 26 4 = Some (mk_element 1 2 2) /\
  comparator_kernel (mk_element 1 2 5) (point_mul (2 ^ 10) G1) = true /\
  comparator_kernel (mk_element 1 2 2) (point_mul (2 ^ 4) G1) = true /\
  comparator_kernel (mk_element 1 2 5) (mk_element 1 2 2) = false /\
  final_accumulation_kernel [zero_element; G1] 2 4 = None /\
  final_accumulation_spec [zero_element; G1] 2 4 = Some (mk_element 1 2 2).
Proof. run_kernels. Qed.

(** C4.  Eight buckets, the first with one point [G1] recorded for it
    ([size = 1], [offset = 0]): the accumulation leaves the all-zero
    triple in its slot, where the sum of the bucket's points is [G1]. *)
Theorem accumulate_buckets_stores_nothing :
  let buckets := replicate 8 zero_element in
  let sizes := [1; 0; 0; 0; 0; 0; 0; 0] in
  let offsets := [0; 1; 1; 1; 1; 1; 1; 1] in
  let keys := [0; 1; 2; 3; 4; 5; 6; 7] in
  bucket_sum_spec [G1] [0] 0 1 = Some G1 /\
  forall zero_element',
    accumulate_buckets_kernel offsets sizes keys [0] [G1] 8 zero_element'
      (mk_tile 0 0 0 1) buckets = Some buckets /\
    rd buckets 0 = Some zero_element.
Proof.
  split; [reflexivity|]. intros zero_element'. split; [|reflexivity].
  apply accumulate_buckets_kernel_runs;
    change (slot (mk_tile 0 0 0 1)) with 0; simpl; lia.
Qed.

(** C5.  Four bucket sums with buckets 2 and 3 both [G1]: the running
    accumulator [line_sum] is [G1] when bucket 2 is added to it, the raw
    addition returns the all-zero triple and is not replaced; the module
    total is [G1] where [2 * G1 + 3 * G1 = 5 * G1] is due. *)
Theorem bucket_running_sum_equal_buckets :
  let buckets := [zero_element; zero_element; G1; G1] in
  add G1 G1 = zero_element /\
  bucket_running_sum_kernel buckets 2 (mk_tile 0 0 0 1) [zero_element]
  = Some [G1] /\
  weighted_sum_spec buckets 2 0 = Some (point_mul 5 G1) /\
  comparator_kernel G1 (point_mul 5 G1) = false /\
  dlog G1 = 1 /\ dlog (point_mul 5 G1) = 5.
Proof. run_kernels. Qed.

(** C7.  Two bucket sums [[b0; b1]] ([c = 1]) on any curve, reduced
    once by the plain running sum and once by the windowed pair with one
    segment of size two: the plain total is [b1]; the windowed result is
    the doubling of the all-zero triple, whatever the buckets hold. *)
Theorem windowed_running_sum_differs {fq : Type} `{Curve fq}
    (b0 b1 : element fq) :
  plain_running_sum [b0; b1] 1 = Some [b1] /\
  windowed_running_sum [b0; b1] 1 2 = Some [doubling zero_element].
Proof. split; reflexivity. Qed.

(** On the small curve: [G1] against the all-zero triple; and with two
    segments of size two on [[0; G1; 0; 0]], [G1] against [2 * G1]. *)
Example windowed_running_sum_Fp7 :
  plain_running_sum [zero_element; G1] 1 = Some [G1] /\
  windowed_running_sum [zero_element; G1] 1 2 = Some [zero_element] /\
  is_zero_element G1 = false /\
  plain_running_sum [zero_element; G1; zero_element; zero_element] 2
  = Some [G1] /\
  windowed_running_sum [zero_element; G1; zero_element; zero_element] 2 2
  = Some [doubling G1].
Proof. run_kernels. Qed.

(** C8.  The naive kernel on the point [G1] twice, each with scalar 1:
    its last addition adds [G1] to [G1], the raw formula returns the
    all-zero triple, and the kernel returns it as it is; with the
    substitution at that site the result is the doubling of [G1]. *)
Theorem double_and_add_unguarded :
  add G1 G1 = zero_element /\
  double_and_add_kernel [fr_of_Z 1; fr_of_Z 1] [G1; G1] 2 = Some zero_element /\
  double_and_add_guarded [fr_of_Z 1; fr_of_Z 1] [G1; G1] 2
  = Some (doubling G1) /\
  is_zero_element (doubling G1) = false /\
  dlog (doubling G1) = 2.
Proof. run_kernels. Qed.

(** C9.  For [n = 0], [msm] returns the identity, the all-zero triple,
    and launches no stage; the naive kernel on no points leaves the same
    value in [final_result]. *)
Theorem msm_empty {fq : Type} `{Curve fq}
    (sorter : Z -> list Z -> list Z -> sorted_buckets)
    (threshold c num_bucket_modules : Z)
    (zero_element' : element fq) (buckets : list (element fq))
    (points : list (fq * fq)) (scalars : list fr_gpu) :
  msm sorter threshold c num_bucket_modules zero_element' buckets points
    scalars 0 = (Some zero_element, []) /\
  double_and_add_kernel scalars (affine_to_jacobian <$> points) 0
  = Some zero_element.
Proof. split; reflexivity. Qed.

(** *** The further properties on the small curve *)

Lemma prime_13 : Z.prime 13.
Proof.
  split; [lia|]. intros n Hn [k Hk].
  assert (Hc : n = 2 \/ n = 3 \/ n = 4 \/ n = 5 \/ n = 6 \/ n = 7 \/ n = 8 \/
               n = 9 \/ n = 10 \/ n = 11 \/ n = 12) by lia.
  repeat (destruct Hc as [->|Hc]; [lia|]). subst n. lia.
Qed.

Lemma fr_of_Z_wf (n : Z) : fr_wf (fr_of_Z n).
Proof.
  split; [reflexivity|]. unfold fr_of_Z, limb_ok. simpl.
  repeat constructor; apply Z.mod_pos_bound; lia.
Qed.

Lemma fmul_comm (a b : Z) : fmul a b = fmul b a.
Proof. unfold fmul. by rewrite Z.mul_comm. Qed.

Lemma fmul_assoc (a b c : Z) : fmul a (fmul b c) = fmul (fmul a b) c.
Proof. unfold fmul, p. Z.mod_equality. Qed.

Lemma fmul_one (u : Z) : in_field u = true -> fmul u 1 = u.
Proof.
  unfold in_field, fmul, p. intros Hu. apply andb_prop in Hu as [H0 H7].
  rewrite Z.mul_1_r. apply Z.mod_small. lia.
Qed.

Lemma double_and_add_kernel_short_witness :
  double_and_add_kernel [fr_max] ([] : list (element Z)) 1 = None.
Proof.
  apply (double_and_add_kernel_short [fr_max] ([] : list (element Z)) 1).
  right. simpl. lia.
Defined.

Lemma accumulate_buckets_kernel_inert_witness :
  exists buckets',
    accumulate_buckets_kernel [0] [1] [0] [0] [G1] 8 zero_element
      (mk_tile 0 0 0 1) (replicate 8 zero_element) = Some buckets' /\
    buckets' = replicate 8 zero_element.
Proof.
  eexists. split; [vm_compute; reflexivity|].
  apply (accumulate_buckets_kernel_inert [0] [1] [0] [0] [G1] 8 zero_element
           (mk_tile 0 0 0 1)).
  vm_compute. reflexivity.
Defined.

Lemma bucket_running_sum_kernel_writes_witness :
  exists fs',
    bucket_running_sum_kernel
      [zero_element; G1; point_mul 3 G1; point_mul 7 G1] 2 (mk_tile 0 0 0 1)
      [zero_element; G1] = Some fs' /\
    0 <= slot (mk_tile 0 0 0 1) < Z.of_nat (length [zero_element; G1]) /\
    exists total,
      fs' = <[Z.to_nat (slot (mk_tile 0 0 0 1)) := total]> [zero_element; G1].
Proof.
  eexists. split; [vm_compute; reflexivity|].
  apply (bucket_running_sum_kernel_writes
           [zero_element; G1; point_mul 3 G1; point_mul 7 G1] 2
           (mk_tile 0 0 0 1) [zero_element; G1]).
  vm_compute. reflexivity.
Defined.

Lemma bucket_running_sum_kernel_skips_bucket_0_witness :
  bucket_running_sum_kernel
    (<[Z.to_nat (slot (mk_tile 0 0 0 1) * 2 ^ 2) := point_mul 5 G1]>
       [zero_element; G1; point_mul 3 G1; point_mul 7 G1])
    2 (mk_tile 0 0 0 1) [zero_element]
  = bucket_running_sum_kernel
      [zero_element; G1; point_mul 3 G1; point_mul 7 G1] 2 (mk_tile 0 0 0 1)
      [zero_element].
Proof.
  apply (bucket_running_sum_kernel_skips_bucket_0
           [zero_element; G1; point_mul 3 G1; point_mul 7 G1] 2
           (mk_tile 0 0 0 1) [zero_element] (point_mul 5 G1)).
  - lia.
  - vm_compute. discriminate.
Defined.

Lemma bucket_running_sum_kernel_3_ignores_G_witness :
  bucket_running_sum_kernel_3 [G1; point_mul 3 G1] [G1; G1; G1] 3 2
    (mk_tile 0 0 0 1) [zero_element]
  = bucket_running_sum_kernel_3 [G1; point_mul 3 G1]
      [point_mul 2 G1; zero_element; point_mul 5 G1] 3 2
      (mk_tile 0 0 0 1) [zero_element].
Proof.
  apply (bucket_running_sum_kernel_3_ignores_G [G1; point_mul 3 G1]
           [G1; G1; G1] [point_mul 2 G1; zero_element; point_mul 5 G1]).
  reflexivity.
Defined.

Lemma comparator_kernel_zero_witness :
  comparator_kernel G1 zero_element = true /\
  comparator_kernel zero_element G1 = true.
Proof.
  apply (comparator_kernel_zero G1).
  - intros a. unfold fq_mul, fq_zero; simpl. unfold fmul.
    by rewrite Z.mul_0_r.
  - intros a. reflexivity.
  - reflexivity.
  - reflexivity.
Defined.

Lemma comparator_kernel_rescale_witness :
  comparator_kernel G1
    (mk_element (fq_mul (fq_square 3) (x G1))
                (fq_mul (fq_mul (fq_square 3) 3) (y G1))
                (fq_mul 3 (z G1))) = true.
Proof.
  apply (comparator_kernel_rescale G1 3).
  - apply fmul_comm.
  - apply fmul_assoc.
  - reflexivity.
  - apply Z.eqb_refl.
Defined.

Lemma split_scalars_kernel_thread_witness :
  exists bi' pi',
    split_scalars_kernel [fr_of_Z 5; fr_of_Z 1000] 2 3 4 1
      (replicate 6 0, replicate 6 0) = Some (bi', pi') /\
    length bi' = length (replicate 6 0) /\
    length pi' = length (replicate 6 0) /\
    forall j, j mod 2 <> 1 \/ 3 <= j / 2 ->
      rd bi' j = rd (replicate 6 0) j /\ rd pi' j = rd (replicate 6 0) j.
Proof.
  apply (split_scalars_kernel_thread [fr_of_Z 5; fr_of_Z 1000] 2 3 4 1
           (fr_of_Z 1000) (replicate 6 0) (replicate 6 0)).
  - reflexivity.
  - apply fr_of_Z_wf.
  - lia.
  - lia.
  - lia.
  - vm_compute. discriminate.
  - lia.
  - simpl. lia.
  - reflexivity.
  - vm_compute. discriminate.
Defined.

Lemma split_scalars_launch_witness :
  exists bi' pi',
    launch (split_scalars_kernel [fr_of_Z 5; fr_of_Z 1000] 2 3 4)
      (seqZ 0 2) (replicate 6 0, replicate 6 0) = Some (bi', pi') /\
    forall i t, 0 <= i < 3 -> 0 <= t < 2 ->
      exists s, rd [fr_of_Z 5; fr_of_Z 1000] t = Some s /\
        rd bi' (i * 2 + t)
        = Some (i * 2 ^ 4 + (scalar_value s / 2 ^ (i * 4)) mod 2 ^ 4) /\
        rd pi' (i * 2 + t) = Some t.
Proof.
  apply (split_scalars_launch [fr_of_Z 5; fr_of_Z 1000] 2 3 4
           (replicate 6 0) (replicate 6 0)).
  - do 2 (constructor; [apply fr_of_Z_wf|]). constructor.
  - simpl. lia.
  - lia.
  - lia.
  - lia.
  - vm_compute. discriminate.
  - vm_compute. discriminate.
  - simpl. lia.
  - reflexivity.
Defined.

Lemma bit_loop_scalar_mul_witness :
  exists R,
    bit_loop (fr_of_Z 5) G1 zero_element = Some R /\ valid R = true /\
    dlog R = (scalar_value (fr_of_Z 5) * dlog G1) mod 13 /\
    dlog R = dlog (point_mul (Z.to_nat (scalar_value (fr_of_Z 5))) G1).
Proof.
  apply (bit_loop_scalar_mul (fr_of_Z 5) G1).
  - apply prime_13.
  - apply fr_of_Z_wf.
  - vm_compute. reflexivity.
  - vm_compute. reflexivity.
Defined.

Lemma double_and_add_kernel_sum_witness :
  exists R,
    double_and_add_kernel [fr_of_Z 5; fr_of_Z 3] [G1; point_mul 2 G1] 2
    = Some R /\
    valid R = true /\
    dlog R =
    foldr Z.add 0
      (zip_with (fun k P => scalar_value k * dlog P)
         [fr_of_Z 5; fr_of_Z 3] [G1; point_mul 2 G1])
    mod 13.
Proof.
  apply (double_and_add_kernel_sum [fr_of_Z 5; fr_of_Z 3]
           [G1; point_mul 2 G1] 2).
  - apply prime_13.
  - do 2 (constructor; [apply fr_of_Z_wf|]). constructor.
  - do 2 (constructor; [vm_compute; reflexivity|]). constructor.
  - do 2 (constructor; [vm_compute; reflexivity|]). constructor.
  - reflexivity.
  - reflexivity.
  - vm_compute. repeat split; try (left; discriminate); right; by right.
Defined.

Lemma bucket_running_sum_kernel_2_sums_witness :
  let buckets := [G1; point_mul 3 G1; point_mul 7 G1] in
  let B := fun u => default zero_element (rd buckets u) in
  exists S G,
    bucket_running_sum_kernel_2 buckets 1 3 (mk_tile 0 0 0 1)
      ([zero_element], [zero_element])
    = Some (<[Z.to_nat (blockIdx_x (mk_tile 0 0 0 1)) := S]> [zero_element],
            <[Z.to_nat (blockIdx_x (mk_tile 0 0 0 1)) := G]> [zero_element]) /\
    valid S = true /\ valid G = true /\
    dlog S = psum (fun u => dlog (B u)) 0 (Z.to_nat 3) mod 13 /\
    dlog G = wsum (fun u => dlog (B u)) 0 (Z.to_nat 3) mod 13.
Proof.
  intros buckets B.
  apply (bucket_running_sum_kernel_2_sums buckets 1 3 (mk_tile 0 0 0 1)
           [zero_element] [zero_element] B).
  - lia.
  - lia.
  - vm_compute. discriminate.
  - simpl. lia.
  - reflexivity.
  - intros u Hu. change (slot (mk_tile 0 0 0 1) * 2 ^ (1 - 1)) with 0.
    assert (Hcase : u = 0 \/ u = 1 \/ u = 2) by lia.
    destruct Hcase as [Hu1 | [Hu1 | Hu1]]; subst u; split; reflexivity.
  - vm_compute. repeat split; try (left; discriminate); right; by right.
Defined.

Lemma bucket_running_sum_kernel_3_value_witness :
  let S_ := [G1; point_mul 3 G1] in
  let Sg := fun m => default zero_element (rd S_ m) in
  exists S_k,
    bucket_running_sum_kernel_3 S_ [G1; G1; G1] 3 2 (mk_tile 0 0 0 1)
      [zero_element]
    = Some (<[Z.to_nat (blockIdx_x (mk_tile 0 0 0 1)) := S_k]>
              [zero_element]) /\
    valid S_k = true /\
    dlog S_k
    = (2 ^ Z.log2 2
       * psum (fun m => (3 - 1 - m) * dlog (Sg m)) 0 (Z.to_nat (3 - 1)))
      mod 13.
Proof.
  intros S_ Sg.
  apply (bucket_running_sum_kernel_3_value S_ [G1; G1; G1] 3 2
           (mk_tile 0 0 0 1) [zero_element] Sg).
  - lia.
  - lia.
  - vm_compute. discriminate.
  - vm_compute. discriminate.
  - simpl. lia.
  - intros m Hm. change (slot (mk_tile 0 0 0 1) * (3 - 1)) with 0.
    assert (Hcase : m = 0 \/ m = 1) by lia.
    destruct Hcase as [Hm1 | Hm1]; subst m; split; reflexivity.
  - vm_compute. repeat split; try (left; discriminate); right; by right.
Defined.

Lemma final_accumulation_kernel_value_witness :
  exists r,
    final_accumulation_kernel (replicate 27 G1) 4 16 = Some r /\
    valid r = true /\
    dlog r = recombine 10 (dlog <$> take 26 (replicate 27 G1)) mod 13.
Proof.
  apply (final_accumulation_kernel_value (replicate 27 G1) 4 16).
  - apply Forall_take, Forall_replicate. reflexivity.
  - rewrite length_replicate. lia.
Defined.

Lemma running_sum_stage_value_witness :
  let buckets := [zero_element; G1; point_mul 3 G1; point_mul 7 G1] in
  let B := fun (w d : Z) => default zero_element (rd buckets d) in
  exists fs',
    launch (bucket_running_sum_kernel buckets 2) (grid 1) [zero_element]
    = Some fs' /\
    length fs' = length [zero_element : element Z] /\
    forall w, 0 <= w < 1 ->
      exists total, rd fs' w = Some total /\ valid total = true /\
        dlog total
        = wsum (fun d => dlog (B w d)) 1 (Z.to_nat (2 ^ 2 - 1)) mod 13.
Proof.
  intros buckets B.
  apply (running_sum_stage_value buckets 2 1 B [zero_element]).
  - lia.
  - lia.
  - simpl. lia.
  - vm_compute. split; congruence.
  - intros w d Hw Hd. assert (w = 0) by lia. subst w.
    change (0 * 2 ^ 2) with 0. change (2 ^ 2) with 4 in Hd.
    assert (Hcase : d = 1 \/ d = 2 \/ d = 3) by lia.
    destruct Hcase as [Hd1 | [Hd1 | Hd1]]; subst d; split; reflexivity.
  - intros w Hw. vm_compute. repeat split; try (left; discriminate).
Defined.

Lemma comparator_affine_witness :
  comparator_kernel (affine_to_jacobian (1, 2)) (affine_to_jacobian (1, 2))
  = true <-> ((1, 2) : Z * Z) = (1, 2).
Proof.
  apply (comparator_affine (fun u => in_field u = true) (1, 2) (1, 2)).
  - apply fmul_one.
  - reflexivity.
  - reflexivity.
  - apply Z.eqb_eq.
  - reflexivity.
  - reflexivity.
  - reflexivity.
  - reflexivity.
Defined.

Lemma initialize_buckets_launch_witness :
  launch initialize_buckets_kernel (grid 2) [G1; G1] = None.
Proof. apply (initialize_buckets_launch 2 [G1; G1]). lia. Defined.

